(** * Pimple: a dependency-injection container (src/index.js)

    A shallow embedding of the container, its Definition objects, the tag
    store and the label registry, followed by the properties of the
    specification.

    Modelling conventions.
    - JavaScript numbers are integers ([Z]); strings are [string].
    - Objects that carry identity live in stores and are named by their index:
      [heap] for plain objects and arrays, [defs] for Definition instances,
      [closures] for the resolver functions built by [Definition.compile].
      A store only grows; an update replaces one cell.
    - A [Map] or [Set] is an association list in insertion order, because
      iteration order is observable ([overTags], label invocation).
    - A thrown exception is the outcome [Throw]; the state reached so far is
      kept, as mutations are not rolled back by an exception.
    - User functions (factories and label callbacks) are named by a [fid];
      what they do is given by a parameter [call_fn] acting on the heap.
      They do not re-enter the container, and a raw specification is never
      itself a Definition or a compiled resolver (the branch of
      [Definition.configure] for that case is outside the model).
    - A call [this.m(...)] of a method of the class is the body of that
      method. This is what the call does as long as no own property of the
      container hides the method. [setRaw] installs an own accessor named
      after the service, which the model records in [accessors]; a container
      is [intact] when none of them has the name of a method or of a field
      of the class. On a container that is not intact the source reads the
      accessor where the model runs the method; the properties that
      register a service and then use the container say that the id is not
      the name of a method.
    - [_.get] is given for a path that is an own property of the payload,
      and for a key without dot or bracket that objects do not inherit;
      what it finds at any other path is a parameter, [baseGet].
    - The state carries a [trace] of resolver and callback calls, which the
      model writes and the container never reads. The properties that count
      calls of user functions state them on [call_fn] itself. *)

From stdpp Require Import base list strings.
From Stdlib Require Import ZArith Lia Permutation Sorted Ascii.

Local Open Scope string_scope.
Local Open Scope list_scope.
Local Open Scope Z_scope.

(** ** Values *)

Definition loc := nat.
Definition fid := nat.
Definition dref := nat.
Definition cref := nat.

(** Content of a heap cell: JSON-like data, nested by value. *)
#[local] Set Warnings "-register-all".
Inductive data :=
| DUndef
| DNull
| DBool (b : bool)
| DNum (z : Z)
| DStr (s : string)
| DArr (items : list data)
| DObj (props : list (string * data)).

(** A first-class value handed to the container as a raw specification. *)
Inductive val :=
| VUndef
| VNull
| VBool (b : bool)
| VNum (z : Z)
| VStr (s : string)
| VRef (l : loc)
| VFun (f : fid).

Arguments VRef l%_nat_scope.
Arguments VFun f%_nat_scope.

(** A value as seen by [setRaw], by a factory ([this] and arguments) and by a
    label callback: a plain value, a Definition instance or the container. *)
Inductive xval :=
| XVal (v : val)
| XDef (d : dref)
| XContainer.

Arguments XDef d%_nat_scope.

Definition truthy_val (v : val) : bool :=
  match v with
  | VUndef | VNull => false
  | VBool b => b
  | VNum z => negb (Z.eqb z 0)
  | VStr s => negb (String.eqb s "")
  | VRef _ | VFun _ => true
  end.

Definition truthy (x : xval) : bool :=
  match x with
  | XVal v => truthy_val v
  | XDef _ | XContainer => true
  end.

(** [!x] *)
Definition js_not (x : xval) : xval := XVal (VBool (negb (truthy x))).

(** [x instanceof Definition] *)
Definition instanceof_Definition (x : xval) : bool :=
  match x with
  | XDef _ => true
  | _ => false
  end.

(** [_.isFunction] and [_.isObject] on raw specifications. *)
Definition isFunction (v : val) : bool :=
  match v with VFun _ => true | _ => false end.

Definition isObject (v : val) : bool :=
  match v with VRef _ | VFun _ => true | _ => false end.

(** ** Errors and outcomes *)

Inductive error :=
| ServiceNotDefined (serviceId : string)
    (* Service with name ... is not defined in container. *)
| RawNotDefinition
    (* Raw definition should be an instance of Definition. *)
| InvalidTag
    (* Service tags can be strings or plain objects with mandatory name field. *)
| LabelNotDefined (label : string)
    (* Pimple label ... callback is not defined but service is labeled wih it. *)
| ValidationError
    (* the error handed to the callback of Joi.validate *)
| TypeError
    (* calling something that is not a function *)
| UserThrow.
    (* an exception raised by a factory or a label callback *)

Inductive outcome (A : Type) :=
| Ok (a : A)
| Throw (e : error).
Arguments Ok {A} a.
Arguments Throw {A} e.

(** ** Insertion-ordered maps and sets *)

Section OrderedMap.
Context {K V : Type} `{EqDecision K}.

Fixpoint map_get (k : K) (m : list (K * V)) : option V :=
  match m with
  | [] => None
  | (k', v) :: m' => if decide (k = k') then Some v else map_get k m'
  end.

Definition map_has (k : K) (m : list (K * V)) : bool :=
  match map_get k m with Some _ => true | None => false end.

(** [Map.prototype.set]: an existing key keeps its position. *)
Fixpoint map_set (k : K) (v : V) (m : list (K * V)) : list (K * V) :=
  match m with
  | [] => [(k, v)]
  | (k', v') :: m' =>
      if decide (k = k') then (k, v) :: m' else (k', v') :: map_set k v m'
  end.

End OrderedMap.

(** [Set.prototype.add] *)
Definition set_add (x : string) (s : list string) : list string :=
  if bool_decide (x ∈ s) then s else s ++ [x].

(** ** Tags *)

(** The value of a property of a tag payload. *)
Inductive fval :=
| FUndef
| FNum (z : Z)
| FStr (s : string).

Global Instance fval_eq_dec : EqDecision fval.
Proof. solve_decision. Defined.

(** A plain object: own properties in insertion order. *)
Definition payload := list (string * fval).

(** What a caller may pass to [tag]. *)
Inductive tagspec :=
| TStr (s : string)                      (* _.isString *)
| TObj (plain : bool) (props : payload)  (* an object; plain = _.isPlainObject *)
| TPrim.                                 (* number, boolean, null, undefined *)

Definition has (props : payload) (key : string) : bool := map_has key props.

Definition normalizeTag (tag : tagspec) : outcome payload :=
  match tag with
  | TStr s => Ok [("name", FStr s)]
  | TObj true props => if has props "name" then Ok props else Throw InvalidTag
  | _ => Throw InvalidTag
  end.

(** [plainTag.name] *)
Definition payload_name (p : payload) : fval := default FUndef (map_get "name" p).

(** [_tags]: tag name -> (service id -> payloads) *)
Definition tagged := list (string * list payload).
Definition tagstore := list (fval * tagged).

(** [tagsIn.push(plainTag)], after the two lookups that create the inner map
    and the array on first use. *)
Definition tag_insert (service : string) (plainTag : payload) (tags : tagstore)
  : tagstore :=
  let name := payload_name plainTag in
  let tagged :=
    if map_has name tags then default [] (map_get name tags) else [] in
  let tagsIn :=
    if map_has service tagged then default [] (map_get service tagged) else [] in
  map_set name (map_set service (tagsIn ++ [plainTag]) tagged) tags.

(** ** Definitions, resolvers and the container *)

(** The Definition class. [resolve] is absent until [compile] has run. *)
Record DefinitionObj := mkDefinition {
  _shared : bool;
  labels : list string;
  context : xval;
  args : list xval;
  raw : val;
  ID : option string;
  resolve : option cref }.

(** The function returned by [createResolver]. *)
Inductive resolver :=
| Bound (f : fid) (this : xval) (bound : list xval)
    (* _.bind(definition, this.context, ...this.arguments()) *)
| Copier (definition : val)
    (* () => this._shared ? definition : clone of definition *)
| Constant (definition : val).
    (* _.constant(definition) *)

Arguments Bound f%_nat_scope this bound.

(** The function returned by [wrap]: the inner resolver, the Definition it
    closes over, and the state of [_.once] (the counter of [_.before(2, f)]
    and the cached result) when the Definition was shared at wrap time. *)
Record closure := mkClosure {
  owner : dref;
  inner : resolver;
  once : option (Z * val) }.

(** A record of the calls made during resolution, in order. It is kept
    beside the program state and no user function can change it, so that the
    properties can count calls. *)
Inductive event :=
| EvResolve (d : dref)               (* d.resolve() was called *)
| EvInner (d : dref)                 (* the inner resolver of d ran *)
| EvLabel (d : dref) (label : string). (* a label callback of d was applied *)

Arguments EvResolve d%_nat_scope.
Arguments EvInner d%_nat_scope.
Arguments EvLabel d%_nat_scope label.
Arguments mkClosure owner%_nat_scope inner once.

(** The container: its five fields, and the names of the own accessors
    that [setRaw] has defined on it, in the order of their definition. *)
Record Pimple := mkPimple {
  _deepClone : bool;
  _definitions : list (string * dref);
  _labels : list (string * fid);
  _tags : tagstore;
  _reserved : list string;
  accessors : list string }.

Record state := mkState {
  heap : list data;
  defs : list DefinitionObj;
  closures : list closure;
  container : Pimple;
  trace : list event }.

Definition with_heap (h : list data) (s : state) : state :=
  mkState h (defs s) (closures s) (container s) (trace s).
Definition with_defs (ds : list DefinitionObj) (s : state) : state :=
  mkState (heap s) ds (closures s) (container s) (trace s).
Definition with_closures (cs : list closure) (s : state) : state :=
  mkState (heap s) (defs s) cs (container s) (trace s).
Definition with_container (p : Pimple) (s : state) : state :=
  mkState (heap s) (defs s) (closures s) p (trace s).
Definition with_trace (t : list event) (s : state) : state :=
  mkState (heap s) (defs s) (closures s) (container s) t.

Definition with_definitions (m : list (string * dref)) (p : Pimple) : Pimple :=
  mkPimple (_deepClone p) m (_labels p) (_tags p) (_reserved p) (accessors p).
Definition with_labels (m : list (string * fid)) (p : Pimple) : Pimple :=
  mkPimple (_deepClone p) (_definitions p) m (_tags p) (_reserved p) (accessors p).
Definition with_tags (m : tagstore) (p : Pimple) : Pimple :=
  mkPimple (_deepClone p) (_definitions p) (_labels p) m (_reserved p) (accessors p).
Definition with_accessors (names : list string) (p : Pimple) : Pimple :=
  mkPimple (_deepClone p) (_definitions p) (_labels p) (_tags p) (_reserved p) names.

(** ** The monad of container operations *)

Definition M (A : Type) : Type := state → outcome A * state.

Definition ret {A} (a : A) : M A := λ s, (Ok a, s).
Definition throw {A} (e : error) : M A := λ s, (Throw e, s).
Definition bind {A B} (m : M A) (k : A → M B) : M B :=
  λ s, match m s with
       | (Ok a, s') => k a s'
       | (Throw e, s') => (Throw e, s')
       end.

Notation "'do' x <- m ; k" := (bind m (λ x, k))
  (at level 10, x name, m at level 100, k at level 200).
Notation "'do_' m ; k" := (bind m (λ _, k))
  (at level 10, m at level 100, k at level 200).

Definition read {A} (f : state → A) : M A := λ s, (Ok (f s), s).
Definition modify (f : state → state) : M unit := λ s, (Ok tt, f s).
Definition emit (e : event) : M unit := modify (λ s, with_trace (trace s ++ [e]) s).

(** [xs.forEach(f)] *)
Fixpoint forEach {A} (f : A → M unit) (xs : list A) : M unit :=
  match xs with
  | [] => ret tt
  | x :: xs' => do_ f x; forEach f xs'
  end.

(** [_.map(xs, f)] *)
Fixpoint mapM {A B} (f : A → M B) (xs : list A) : M (list B) :=
  match xs with
  | [] => ret []
  | x :: xs' => do y <- f x; do ys <- mapM f xs'; ret (y :: ys)
  end.

(** ** Stores *)

Definition get_def (d : dref) : M DefinitionObj :=
  λ s, match defs s !! d with
       | Some D => (Ok D, s)
       | None => (Throw TypeError, s)
       end.

Definition put_def (d : dref) (D : DefinitionObj) : M unit :=
  modify (λ s, with_defs (<[d := D]> (defs s)) s).

Definition get_closure (c : cref) : M closure :=
  λ s, match closures s !! c with
       | Some cl => (Ok cl, s)
       | None => (Throw TypeError, s)
       end.

Definition put_closure (c : cref) (cl : closure) : M unit :=
  modify (λ s, with_closures (<[c := cl]> (closures s)) s).

Definition new_def (D : DefinitionObj) : M dref :=
  λ s, (Ok (length (defs s)), with_defs (defs s ++ [D]) s).

Definition new_closure (cl : closure) : M cref :=
  λ s, (Ok (length (closures s)), with_closures (closures s ++ [cl]) s).

(** A fresh heap cell holding [d]. *)
Definition alloc (d : data) : M val :=
  λ s, (Ok (VRef (length (heap s))), with_heap (heap s ++ [d]) s).

(** [_.cloneDeep] and [_.clone] of a raw specification. Cells hold their
    content by value, so both copy the cell. *)
Definition cloneDeep (v : val) : M val :=
  match v with
  | VRef l => do d <- read (λ s, default (DObj []) (heap s !! l)); alloc d
  | _ => ret v
  end.

Definition clone (v : val) : M val :=
  match v with
  | VRef l => do d <- read (λ s, default (DObj []) (heap s !! l)); alloc d
  | _ => ret v
  end.

(** ** Pimple: lookups, labels and tags *)

Definition getDefinition (serviceId : string) : M dref :=
  do definition <- read (λ s, map_get serviceId (_definitions (container s)));
  match definition with
  | None => throw (ServiceNotDefined serviceId)
  | Some d => ret d
  end.

Definition defineLabel (label : string) (callback : fid) : M unit :=
  modify (λ s, with_container
                 (with_labels (map_set label callback (_labels (container s)))
                              (container s)) s).

Arguments defineLabel label callback%_nat_scope.

Definition getLabel (label : string) : M fid :=
  do cb <- read (λ s, map_get label (_labels (container s)));
  match cb with
  | None => throw (LabelNotDefined label)
  | Some f => ret f
  end.

(** [Definition.label(name, labelToDefine)] *)
Definition label (d : dref) (name : string) (labelToDefine : option fid) : M unit :=
  do D <- get_def d;
  do_ put_def d (mkDefinition (_shared D) (set_add name (labels D)) (context D)
                              (args D) (raw D) (ID D) (resolve D));
  match labelToDefine with
  | Some f => defineLabel name f
  | None => ret tt
  end.

Definition addLabel (serviceId : string) (labels : list string) : M unit :=
  do rawDef <- getDefinition serviceId;
  forEach (λ l, label rawDef l None) labels.

Definition tag_one (service : string) (tag : tagspec) : M unit :=
  match normalizeTag tag with
  | Throw e => throw e
  | Ok plainTag =>
      modify (λ s, with_container
                     (with_tags (tag_insert service plainTag (_tags (container s)))
                                (container s)) s)
  end.

Definition tag (service : string) (tags : list tagspec) : M unit :=
  forEach (tag_one service) tags.

(** [getTag]: the inner map, or a new empty one. *)
Definition getTag (tagName : fval) (s : state) : tagged :=
  if map_has tagName (_tags (container s))
  then default [] (map_get tagName (_tags (container s)))
  else [].

(** The array kept for one service under one tag name. *)
Definition tagsOf (tagName : fval) (service : string) (s : state) : list payload :=
  default [] (map_get service (getTag tagName s)).

(** [Definition.tags(...tags)]. The model reaches it from a configurator,
    after [compile] has set [ID]. On a Definition without [ID] the source
    files the tags under the key undefined, which a store keyed by strings
    cannot hold; that branch is closed here by an error. *)
Definition tags (d : dref) (ts : list tagspec) : M unit :=
  do D <- get_def d;
  match ID D with
  | Some id => tag id ts
  | None => throw TypeError
  end.

(** ** overTags *)

Record sortOptions := mkSortOptions {
  field : string;
  order : Z }.

(** The schema given to [Joi.validate]: [field] a non-empty string, [order]
    a number between -1 and 1 other than 0. *)
Definition validate (o : sortOptions) : bool :=
  negb (String.eqb (field o) "")
  && (-1 <=? order o) && (order o <=? 1) && negb (Z.eqb (order o) 0).

(** The members that an object inherits from [Object.prototype]. *)
Definition Object_prototype : list string :=
  ["constructor"; "hasOwnProperty"; "isPrototypeOf"; "propertyIsEnumerable";
   "toLocaleString"; "toString"; "valueOf"; "__proto__";
   "__defineGetter__"; "__defineSetter__"; "__lookupGetter__";
   "__lookupSetter__"].

Fixpoint mentions (c : Ascii.ascii) (s : string) : bool :=
  match s with
  | EmptyString => false
  | String c' s' => Ascii.eqb c c' || mentions c s'
  end.

(** A path that [_.get] takes as one key on every object: it has no dot and
    no bracket. *)
Definition is_key (path : string) : bool :=
  negb (mentions "."%char path || mentions "["%char path).

(** The pairs pushed by the two nested [forEach] loops. *)
Definition flatten (tagMap : tagged) : list (string * payload) :=
  flat_map (λ '(taggedService, tags), map (pair taggedService) tags) tagMap.

(** [Array.prototype.sort(comparefn)]: a stable sort; [x] was before every
    element of [l] and stays before those it does not compare greater than. *)
Fixpoint sort_insert {A} (comparefn : A → A → Z) (x : A) (l : list A) : list A :=
  match l with
  | [] => [x]
  | y :: l' =>
      if 0 <? comparefn x y then y :: sort_insert comparefn x l' else x :: l
  end.

Definition Array_sort {A} (comparefn : A → A → Z) (l : list A) : list A :=
  foldr (sort_insert comparefn) [] l.

Section OverTags.
(** ToNumber on a string, with [None] for NaN: the runtime's conversion. *)
Variable StringToNumber : string → option Z.

(** What [_.get] finds in a payload at a path that is not one of its own
    properties and that is split into several keys, or that names a member
    the payload inherits: the library's walk along the path. *)
Variable baseGet : payload → string → fval.

(** [_.get(tag, path, defaultValue)]. A path that is an own property of the
    payload is that property, whatever it looks like; a key that is neither
    own nor inherited is undefined; undefined gives the default. *)
Definition get_or (tag : payload) (path : string) (defaultValue : fval) : fval :=
  let result :=
    match map_get path tag with
    | Some v => v
    | None =>
        if is_key path && negb (bool_decide (path ∈ Object_prototype))
        then FUndef
        else baseGet tag path
    end in
  match result with
  | FUndef => defaultValue
  | _ => result
  end.

Definition ToNumber (v : fval) : option Z :=
  match v with
  | FUndef => None
  | FNum z => Some z
  | FStr s => StringToNumber s
  end.

(** [a < b] *)
Definition js_lt (a b : fval) : bool :=
  match a, b with
  | FStr x, FStr y => String.ltb x y
  | _, _ =>
      match ToNumber a, ToNumber b with
      | Some x, Some y => x <? y
      | _, _ => false
      end
  end.

(** The comparator handed to [sort]. *)
Definition compare_pairs (o : sortOptions) (a b : string * payload) : Z :=
  let v1 := get_or (snd a) (field o) (FNum 0) in
  let v2 := get_or (snd b) (field o) (FNum 0) in
  if js_lt v1 v2 then -1 * order o
  else if js_lt v2 v1 then 1 * order o else 0.

Definition getSortedTags {A} (tagName : fval) (sortFunction : tagged → A)
  (s : state) : A :=
  sortFunction (getTag tagName s).

(** The sequence of [(taggedServiceName, tag)] the callback is applied to. *)
Definition overTags (tagName : fval) (sortOptions : option sortOptions)
  (s : state) : outcome (list (string * payload)) :=
  match sortOptions with
  | Some o =>
      if validate o
      then Ok (getSortedTags tagName
                 (λ tagMap, Array_sort (compare_pairs o) (flatten tagMap)) s)
      else Throw ValidationError
  | None => Ok (flatten (getTag tagName s))
  end.
End OverTags.

(** The fields of the class, which are what [_.keysIn(this)] lists in the
    constructor, and the methods the class calls on a container. *)
Definition fields : list string :=
  ["_deepClone"; "_definitions"; "_labels"; "_tags"; "_reserved"].

Definition methods : list string :=
  ["get"; "getResolver"; "set"; "getDefinition"; "setRaw"; "setShared";
   "register"; "create"; "tag"; "getTag"; "overTags"; "getSortedTags";
   "addLabel"; "defineLabel"; "getLabel"; "isReserved"].

(** The container as the constructor has it before it registers the initial
    definitions, over the heap [h] of the caller. *)
Definition empty_state (deepClone : bool) (h : list data) : state :=
  mkState h [] [] (mkPimple deepClone [] [] [] fields []) [].


(** ** Resolution *)

(** What the user functions do. [call_fn f this args h] is the function [f]
    applied to [args] with receiver [this] on the heap [h]: the value it
    returns, or [None] when it throws, and the heap it leaves. *)
Definition user_functions : Type :=
  fid → xval → list xval → list data → option val * list data.

Section Engine.
Variable call_fn : user_functions.

Definition apply_fn (f : fid) (this : xval) (arguments : list xval) : M val :=
  λ s, match call_fn f this arguments (heap s) with
       | (Some v, h) => (Ok v, with_heap h s)
       | (None, h) => (Throw UserThrow, with_heap h s)
       end.

(** [this.ID] as an argument *)
Definition id_arg (id : option string) : xval :=
  match id with
  | Some i => XVal (VStr i)
  | None => XVal VUndef
  end.

(** The body of [this.labels.forEach] in [wrap]. *)
Definition apply_label (d : dref) (instance : val) (l : string) : M unit :=
  do cb <- getLabel l;
  do D <- get_def d;
  do_ emit (EvLabel d l);
  do _ <- apply_fn cb (XDef d) [XVal instance; XContainer; id_arg (ID D)];
  ret tt.

(** Calling the function returned by [createResolver]. *)
Definition run_inner (d : dref) (r : resolver) : M val :=
  match r with
  | Bound f this bound => apply_fn f this bound
  | Copier definition =>
      do D <- get_def d;
      if _shared D then ret definition
      else
        do deep <- read (λ s, _deepClone (container s));
        if deep then cloneDeep definition else clone definition
  | Constant definition => ret definition
  end.

(** The wrapper installed by [_.wrap] in [wrap]. *)
Definition wrapped (cl : closure) : M val :=
  do_ emit (EvInner (owner cl));
  do instance <- run_inner (owner cl) (inner cl);
  do D <- get_def (owner cl);
  do_ forEach (apply_label (owner cl) instance) (labels D);
  ret instance.

(** Calling [definition.resolve]: [wrapped], behind [_.once] when the
    Definition was shared at wrap time. [_.once(f)] is [_.before(2, f)]:
    the counter is decremented first, [f] runs while it stays positive, and
    the last result is returned. *)
Definition call_resolver (c : cref) : M val :=
  do cl <- get_closure c;
  match once cl with
  | None => wrapped cl
  | Some (n, result) =>
      do_ put_closure c (mkClosure (owner cl) (inner cl) (Some (n - 1, result)));
      if 0 <? n - 1 then
        do v <- wrapped cl;
        do_ put_closure c (mkClosure (owner cl) (inner cl) (Some (n - 1, v)));
        ret v
      else ret result
  end.

(** [definition.resolve()] *)
Definition resolve_def (d : dref) : M val :=
  do D <- get_def d;
  match resolve D with
  | Some c => do_ emit (EvResolve d); call_resolver c
  | None => throw TypeError
  end.

Definition get (serviceId : string) : M val :=
  do d <- getDefinition serviceId;
  resolve_def d.

(** The function itself, or nothing when the Definition is not compiled. *)
Definition getResolver (serviceId : string) : M (option cref) :=
  do d <- getDefinition serviceId;
  do D <- get_def d;
  ret (resolve D).

(** [Definition.arguments()] *)
Definition arguments (d : dref) : M (list xval) :=
  do D <- get_def d;
  mapM (λ arg, match arg with
               | XDef a => do v <- resolve_def a; ret (XVal v)
               | _ => ret arg
               end) (args D).

Definition createResolver (d : dref) (definition : val) : M resolver :=
  match definition with
  | VFun f =>
      do D <- get_def d;
      do bound <- arguments d;
      ret (Bound f (context D) bound)
  | VRef _ => ret (Copier definition)
  | _ => ret (Constant definition)
  end.

Definition wrap (d : dref) (r : resolver) : M cref :=
  do D <- get_def d;
  new_closure (mkClosure d r (if _shared D then Some (2, VUndef) else None)).

Definition compile (d : dref) (serviceId : string) : M unit :=
  do D <- get_def d;
  do_ put_def d (mkDefinition (_shared D) (labels D) (context D) (args D)
                              (raw D) (Some serviceId) (resolve D));
  do r <- createResolver d (raw D);
  do c <- wrap d r;
  do D' <- get_def d;
  put_def d (mkDefinition (_shared D') (labels D') (context D') (args D')
                          (raw D') (ID D') (Some c)).

(** The callbacks built by [exports.label] and [exports.tag]. *)
Inductive configurator :=
| label_of (name : string) (callback : option fid)
| tag_of (ts : list tagspec).

Definition configure_with (d : dref) (cfg : configurator) : M unit :=
  match cfg with
  | label_of name callback => label d name callback
  | tag_of ts => tags d ts
  end.

Definition isReserved (serviceId : string) : M bool :=
  read (λ s, bool_decide (serviceId ∈ _reserved (container s))).

(** [Object.defineProperty(this, serviceId, {get: ..., configurable: true,
    enumerable: true})]: a new own accessor, or the existing one of that
    name defined again where it stands. *)
Definition defineProperty (serviceId : string) : M unit :=
  modify (λ s, with_container
                 (with_accessors (set_add serviceId (accessors (container s)))
                                 (container s)) s).

(** The getter of the accessor: [() => this.get(serviceId)]. *)
Definition getter (serviceId : string) : M val := get serviceId.

Definition setRaw (serviceId : string) (definition : xval)
  (configurators : list configurator) : M unit :=
  if instanceof_Definition (js_not definition) then throw RawNotDefinition
  else
    match definition with
    | XDef d =>
        do_ compile d serviceId;
        do_ modify (λ s, with_container
                           (with_definitions
                              (map_set serviceId d (_definitions (container s)))
                              (container s)) s);
        do reserved <- isReserved serviceId;
        do_ (if reserved then ret tt else defineProperty serviceId);
        forEach (configure_with d) configurators
    | _ => throw TypeError
    end.

(** [context || this] *)
Definition or_this (x : option xval) : xval :=
  match x with
  | Some v => if truthy v then v else XContainer
  | None => XContainer
  end.

(** [new Definition(definition, this, context || this, argument || this)] *)
Definition create (definition : val) (context argument : option xval) : M dref :=
  new_def (mkDefinition false [] (or_this context) [or_this argument]
                        definition None None).

Definition set (serviceId : string) (definition : val)
  (configurators : list configurator) : M unit :=
  do d <- create definition None None;
  setRaw serviceId (XDef d) configurators.

(** [def.shared = true] *)
Definition set_shared (d : dref) (val : bool) : M unit :=
  do D <- get_def d;
  put_def d (mkDefinition val (labels D) (context D) (args D) (raw D) (ID D)
                          (resolve D)).

Definition setShared (serviceId : string) (definition : val)
  (configures : list configurator) : M unit :=
  do def <- create definition None None;
  do_ set_shared def true;
  setRaw serviceId (XDef def) configures.

(** [new Pimple(definitions, deepClone)] over the heap [h] of the caller. *)
Definition new_Pimple (definitions : list (string * val)) (deepClone : bool)
  (h : list data) : outcome unit * state :=
  forEach (λ '(serviceId, definition), set serviceId definition [])
          definitions (empty_state deepClone h).

End Engine.

(** * Vocabulary of the properties *)

(** ** Tags *)

(** A sequence of [tag] calls, one tag each. *)
Definition tag_calls (calls : list (string * tagspec)) : M unit :=
  forEach (λ c, tag (fst c) [snd c]) calls.

(** The payloads such a sequence files under [name] for [service]. *)
Fixpoint recorded (name : fval) (service : string)
  (calls : list (string * tagspec)) : list payload :=
  match calls with
  | [] => []
  | c :: rest =>
      match normalizeTag (snd c) with
      | Ok p =>
          (if decide (payload_name p = name ∧ fst c = service) then [p] else [])
          ++ recorded name service rest
      | Throw _ => recorded name service rest
      end
  end.

(** The service ids under which a sequence of [tag] calls files a payload
    named [name], each at its first call, after those in [seen]. *)
Definition first_tagged (name : fval) (calls : list (string * tagspec))
  (seen : list string) : list string :=
  foldl (λ acc c,
           match normalizeTag (snd c) with
           | Ok p => if decide (payload_name p = name) then set_add (fst c) acc
                     else acc
           | Throw _ => acc
           end) seen calls.

(** The number a pair is sorted by, and the pairs that have one. *)
Definition sort_key (baseGet : payload → string → fval) (field : string)
  (a : string * payload) : Z :=
  match get_or baseGet (snd a) field (FNum 0) with
  | FNum z => z
  | _ => 0
  end.

Definition numeric_at (baseGet : payload → string → fval) (field : string)
  (a : string * payload) : Prop :=
  ∃ z, get_or baseGet (snd a) field (FNum 0) = FNum z.

(** The number held by the own property [field] of a payload, 0 when the
    payload has no such property or something else than a number in it. *)
Definition own_number (field : string) (p : payload) : Z :=
  match map_get field p with
  | Some (FNum z) => z
  | _ => 0
  end.

(** The pairs a sequence of [tag] calls files under [name], as the
    specification orders them: the services in the order in which each was
    first tagged under the name, and for each service its payloads in the
    order of the calls. Beside it, the same pairs in the order of the calls. *)
Definition tagging_order (name : fval) (calls : list (string * tagspec))
  : list (string * payload) :=
  flat_map (λ service, map (pair service) (recorded name service calls))
           (first_tagged name calls []).

Definition call_order (name : fval) (calls : list (string * tagspec))
  : list (string * payload) :=
  omap (λ c, match normalizeTag (snd c) with
             | Ok p => if decide (payload_name p = name) then Some (fst c, p)
                       else None
             | Throw _ => None
             end) calls.

(** ** Registered services *)

(** [serviceId] is registered: its Definition [D], kept at [d], is compiled
    to the resolver [cl], kept at [c]. *)
Definition service_at (st : state) (serviceId : string) (d : dref)
  (D : DefinitionObj) (c : cref) (cl : closure) : Prop :=
  map_get serviceId (_definitions (container st)) = Some d
  ∧ defs st !! d = Some D
  ∧ resolve D = Some c
  ∧ closures st !! c = Some cl
  ∧ owner cl = d.

Arguments service_at st serviceId d%_nat_scope D c%_nat_scope cl.


(** Everything but the heap and the trace is the same in both states. *)
Definition same_stores (st st' : state) : Prop :=
  defs st' = defs st ∧ closures st' = closures st ∧ container st' = container st.

(** The inner resolver of a Definition none of whose arguments is a
    Definition: nothing is resolved when it is compiled. *)
Definition resolver_of (D : DefinitionObj) : resolver :=
  match raw D with
  | VFun f => Bound f (context D) (args D)
  | VRef _ => Copier (raw D)
  | _ => Constant (raw D)
  end.

(** The Definition [D], kept at [d], once compiled under [serviceId], and
    the state in which this has happened. *)
Definition compiled (D : DefinitionObj) (serviceId : string) (c : cref)
  : DefinitionObj :=
  mkDefinition (_shared D) (labels D) (context D) (args D) (raw D)
               (Some serviceId) (Some c).

Definition compiled_state (d : dref) (D : DefinitionObj) (serviceId : string)
  (st : state) : state :=
  mkState (heap st)
          (<[d := compiled D serviceId (length (closures st))]> (defs st))
          (closures st
           ++ [mkClosure d (resolver_of D)
                         (if _shared D then Some (2, VUndef) else None)])
          (container st) (trace st).

(** The container once [setRaw] has entered a Definition under
    [serviceId]: the entry in the definitions, and the accessor unless the
    id is reserved. *)
Definition entered (serviceId : string) (d : dref) (P : Pimple) : Pimple :=
  with_accessors
    (if bool_decide (serviceId ∈ _reserved P) then accessors P
     else set_add serviceId (accessors P))
    (with_definitions (map_set serviceId d (_definitions P)) P).

(** No own accessor of the container hides a method or a field of the
    class, and the fields are reserved: every [this.m] in the source is the
    member of the class. *)
Definition intact (st : state) : bool :=
  forallb (λ m, bool_decide (m ∈ _reserved (container st))) fields
  && forallb (λ m, negb (bool_decide (m ∈ accessors (container st))))
             (methods ++ fields).

(** The id is the name of a method: an accessor of that name would hide it. *)
Definition shadows (serviceId : string) : bool :=
  bool_decide (serviceId ∈ methods).

(** A Definition with one more label in its set. *)
Definition labelled (name : string) (D : DefinitionObj) : DefinitionObj :=
  mkDefinition (_shared D) (set_add name (labels D)) (context D) (args D)
               (raw D) (ID D) (resolve D).

(** The two ways of attaching a label to a registered service. *)
Inductive attachment :=
| ViaAddLabel
| ViaDefinitionLabel (labelToDefine : option fid).

Definition attach (how : attachment) (serviceId : string) (d : dref)
  (name : string) : M unit :=
  match how with
  | ViaAddLabel => addLabel serviceId [name]
  | ViaDefinitionLabel labelToDefine => label d name labelToDefine
  end.

Arguments attach how serviceId d%_nat_scope name.

(** The Definitions among the arguments of a factory. *)
Definition definition_args (arguments : list xval) : list dref :=
  omap (λ x, match x with XDef a => Some a | _ => None end) arguments.

(** ** Runs and traces *)

(** A call of a user function: the function, the receiver and the arguments. *)
Record call := mkCall {
  callee : fid;
  receiver : xval;
  actuals : list xval }.

Arguments mkCall callee%_nat_scope receiver actuals.

Section Runs.
Variable call_fn : user_functions.

(** [n] calls of [get] in a row; the values they return. *)
Fixpoint gets (n : nat) (serviceId : string) : M (list val) :=
  match n with
  | O => ret []
  | S n' =>
      do v <- get call_fn serviceId;
      do vs <- gets n' serviceId;
      ret (v :: vs)
  end.

(** *** What resolution does, stated on the user functions *)

(** The heap after a sequence of calls, each made on the heap that the one
    before it left. *)
Definition heap_after (calls : list call) (h : list data) : list data :=
  foldl (λ h' c, snd (call_fn (callee c) (receiver c) (actuals c) h')) h calls.

(** The value and the heap that the function built by [createResolver]
    gives: the factory applied to the bound arguments; the object itself
    when the Definition is shared, else a copy in a new cell; the constant. *)
Definition inner_result (D : DefinitionObj) (r : resolver) (h : list data)
  : option val * list data :=
  match r with
  | Bound f this bound => call_fn f this bound h
  | Copier definition =>
      if _shared D then (Some definition, h)
      else match definition with
           | VRef l => (Some (VRef (length h)), h ++ [default (DObj []) (h !! l)])
           | _ => (Some definition, h)
           end
  | Constant definition => (Some definition, h)
  end.

(** The calls that follow in one resolution: for each label of the
    Definition, in the order of its label set, the callback registered for
    the label, applied to the instance, the container and the id, with the
    Definition as receiver. *)
Definition calls_of (P : Pimple) (d : dref) (D : DefinitionObj)
  (instance : val) (ls : list string) : list call :=
  omap (λ l, (λ f, mkCall f (XDef d) [XVal instance; XContainer; id_arg (ID D)])
               <$> map_get l (_labels P))
       ls.

Definition label_calls (P : Pimple) (d : dref) (D : DefinitionObj)
  (instance : val) : list call :=
  calls_of P d D instance (labels D).

(** One resolution that completes: the instance, and the heap once the
    callbacks have been applied. Then [n] of them in a row. *)
Definition resolution (P : Pimple) (d : dref) (D : DefinitionObj) (r : resolver)
  (h : list data) : val * list data :=
  let instance := default VUndef (fst (inner_result D r h)) in
  (instance, heap_after (label_calls P d D instance) (snd (inner_result D r h))).

Fixpoint resolutions (n : nat) (P : Pimple) (d : dref) (D : DefinitionObj)
  (r : resolver) (h : list data) : list val * list data :=
  match n with
  | O => ([], h)
  | S n' =>
      let '(v, h1) := resolution P d D r h in
      let '(vs, h2) := resolutions n' P d D r h1 in
      (v :: vs, h2)
  end.

(** One call of a compiled resolver that completes: a resolution, unless
    the resolver is behind a [_.once] that has run down, which gives the
    value it holds and touches nothing. *)
Definition resolver_result (P : Pimple) (D : DefinitionObj) (cl : closure)
  (h : list data) : val * list data :=
  match once cl with
  | Some (n, result) =>
      if 0 <? n - 1 then resolution P (owner cl) D (inner cl) h else (result, h)
  | None => resolution P (owner cl) D (inner cl) h
  end.

(** The arguments handed to [_.bind], and the heap once they are computed:
    each argument that is a Definition is replaced by what one call of its
    resolver gives, from left to right; the others pass through. The
    Definitions and their resolvers are looked up in [st]. *)
Fixpoint arguments_result (st : state) (arguments : list xval) (h : list data)
  : list xval * list data :=
  match arguments with
  | [] => ([], h)
  | XDef a :: rest =>
      match defs st !! a with
      | Some A =>
          match resolve A ≫= (λ c, closures st !! c) with
          | Some cl =>
              let '(v, h1) := resolver_result (container st) A cl h in
              let '(bound, h2) := arguments_result st rest h1 in
              (XVal v :: bound, h2)
          | None => ([], h)
          end
      | None => ([], h)
      end
  | arg :: rest =>
      let '(bound, h1) := arguments_result st rest h in
      (arg :: bound, h1)
  end.

(** A user function that completes, whatever it does to the heap. *)
Definition completes (f : fid) : Prop :=
  ∀ this arguments h, ∃ r h', call_fn f this arguments h = (Some r, h').

(** A user function that completes and changes no existing cell of the heap:
    it may only add cells. *)
Definition quiet (f : fid) : Prop :=
  ∀ this arguments h, ∃ r ext, call_fn f this arguments h = (Some r, h ++ ext).

(** Each of the labels has a callback registered, and that callback
    completes; or is even quiet. *)
Definition live_labels (st : state) (ls : list string) : Prop :=
  Forall (λ l, ∃ f, map_get l (_labels (container st)) = Some f ∧ completes f) ls.

Definition quiet_labels (st : state) (ls : list string) : Prop :=
  Forall (λ l, ∃ f, map_get l (_labels (container st)) = Some f ∧ quiet f) ls.
End Runs.

Global Instance event_eq_dec : EqDecision event.
Proof. solve_decision. Defined.

(** The events added to the trace between two states. *)
Definition since (st st' : state) : list event :=
  drop (length (trace st)) (trace st').

(** How often an event occurs. *)
Definition occurrences (e : event) (evs : list event) : nat :=
  length (filter (λ e', e' = e) evs).

(** * Scenarios of the test suite *)

(** The user functions of the scenarios. Function 0 is [arr => arr.push(1)];
    function 1 is a factory that builds a new empty array; any other
    function returns undefined and changes nothing. *)
Definition push_one (h : list data) (l : loc) : list data :=
  match h !! l with
  | Some (DArr items) => <[l := DArr (items ++ [DNum 1])]> h
  | _ => h
  end.

Definition scenario_fn : user_functions :=
  λ f this arguments h,
    match f, arguments with
    | O, XVal (VRef l) :: _ => (Some VUndef, push_one h l)
    | S O, _ => (Some (VRef (length h)), h ++ [DArr []])
    | _, _ => (Some VUndef, h)
    end.

(** "ordering by specific field": services a, b and c tagged t with order
    30, 20 and 10. *)
Definition t30 : payload := [("name", FStr "t"); ("order", FNum 30)].
Definition t20 : payload := [("name", FStr "t"); ("order", FNum 20)].
Definition t10 : payload := [("name", FStr "t"); ("order", FNum 10)].

Definition three_tagged : state :=
  snd ((do_ tag "a" [TObj true t30];
        do_ tag "b" [TObj true t20];
        tag "c" [TObj true t10]) (empty_state true [])).

(** Four calls for three services under one tag name: a, b and a again with
    the same order, then c with a larger one. The property [n] numbers the
    calls. *)
Definition tie_calls : list (string * tagspec) :=
  [("a", TObj true [("name", FStr "t"); ("order", FNum 20); ("n", FNum 1)]);
   ("b", TObj true [("name", FStr "t"); ("order", FNum 20); ("n", FNum 2)]);
   ("a", TObj true [("name", FStr "t"); ("order", FNum 20); ("n", FNum 3)]);
   ("c", TObj true [("name", FStr "t"); ("order", FNum 30); ("n", FNum 4)])].

Definition tied : state := snd (tag_calls tie_calls (empty_state true [])).

(** A [baseGet] for the scenarios, none of which reads a path beyond the own
    properties. *)
Definition no_path : payload → string → fval := λ _ _, FUndef.

(** "ordering by specific field", with repeated tags: a is tagged with
    priority 1000 and 20, b with no priority and with 20000. *)
Definition priorities : state :=
  snd ((do_ tag "a" [TObj true [("name", FStr "t"); ("priority", FNum 1000)]];
        do_ tag "a" [TObj true [("name", FStr "t"); ("priority", FNum 20)]];
        do_ tag "b" [TStr "t"];
        tag "b" [TObj true [("name", FStr "t"); ("priority", FNum 20000)]])
         (empty_state true [])).

(** "should return tagged services Map" *)
Definition tagged_wo : state :=
  snd ((do_ tag "data1" [TStr "wo"; TObj true [("name", FStr "wo"); ("val", FStr "42")]];
        tag "data2" [TObj true [("name", FStr "wo"); ("val", FStr "*");
                                ("opt", FNum 42)]])
         (empty_state true [])).

(** "should add service definition to the container":
    [pimple.set('data', {data: 'test'})]. *)
Definition plain_data : state :=
  snd (set scenario_fn "data" (VRef 0) []
         (empty_state true [DObj [("data", DStr "test")]])).

(** "shared instances": the same array registered as shared under one id and
    as a plain service under another. *)
Definition shared_and_copy : state :=
  snd ((do_ setShared scenario_fn "array" (VRef 0) [];
        set scenario_fn "array-c" (VRef 0) []) (empty_state true [DArr []])).

(** "should call once for shared": a shared array labelled push, the label
    defined, not yet resolved. *)
Definition shared_array : state :=
  snd ((do_ defineLabel "push" 0;
        do_ setShared scenario_fn "array" (VRef 0) [];
        addLabel "array" ["push"]) (empty_state true [DArr []])).

(** "multiple unique labels are available": [pimple.set('array', [])] with
    the two labels defined. *)
Definition plain_array : state :=
  snd ((do_ defineLabel "pushEverything" 0;
        do_ defineLabel "pushCount" 0;
        set scenario_fn "array" (VRef 0) []) (empty_state true [DArr []])).

(** "inline declaration and set of label":
    [pimple.set('arr', [], label('push', arr => arr.push(1)))]. *)
Definition labelled_array : state :=
  snd (set scenario_fn "arr" (VRef 0) [label_of "push" (Some 0%nat)]
         (empty_state true [DArr []])).

(** A factory whose argument is the Definition of another service, built
    with [create] and not yet registered:
    [pimple.set('dep', f); d = pimple.create(f, undefined, pimple.getDefinition('dep'))]. *)
Definition factory_with_dependency : state :=
  snd ((do_ set scenario_fn "dep" (VFun 1) [];
        create (VFun 1) None (Some (XDef 0))) (empty_state true [])).

(** * Vocabulary of the further properties *)

(** The Definition that [create] builds from a raw specification, and the
    state after [set] ([shared] false) or [setShared] ([shared] true) has
    registered it without configurators. *)
Definition fresh_definition (shared : bool) (definition : val) : DefinitionObj :=
  mkDefinition shared [] XContainer [XContainer] definition None None.

Definition registered (shared : bool) (serviceId : string) (definition : val)
  (st : state) : state :=
  mkState (heap st)
          (defs st
           ++ [compiled (fresh_definition shared definition) serviceId
                        (length (closures st))])
          (closures st
           ++ [mkClosure (length (defs st))
                         (resolver_of (fresh_definition shared definition))
                         (if shared then Some (2, VUndef) else None)])
          (entered serviceId (length (defs st)) (container st))
          (trace st).

(** Further scenarios: an array service labelled push while no callback is
    defined for push, registered with [set] and with [setShared]; and the
    shared, labelled array of the test suite after its first [get]. *)
Definition undefined_label : state :=
  snd ((do_ set scenario_fn "array" (VRef 0) [];
        addLabel "array" ["push"]) (empty_state true [DArr []])).

Definition shared_undefined_label : state :=
  snd ((do_ setShared scenario_fn "array" (VRef 0) [];
        addLabel "array" ["push"]) (empty_state true [DArr []])).

Definition shared_array_resolved : state :=
  snd (get scenario_fn "array" shared_array).

(** A Definition with several more labels in its set, added in order. *)
Definition add_labels (ls : list string) (D : DefinitionObj) : DefinitionObj :=
  foldl (λ D' l, labelled l D') D ls.

(** Two Definitions built with [create] and not registered: a number, and a
    factory that takes the first as its argument. *)
Definition unregistered_dependency : state :=
  snd ((do d0 <- create (VNum 1) None None;
        create (VFun 1) None (Some (XDef d0))) (empty_state true [])).

(** The labelled array of the test suite after [def.shared = true] was set
    on its Definition, which is compiled already. *)
Definition shared_too_late : state :=
  snd (set_shared 0%nat true labelled_array).

(** A shared array with two labels attached before its first resolution:
    missing, for which no callback is defined, and then push. *)
Definition shared_missing_label : state :=
  snd ((do_ defineLabel "push" 0;
        do_ setShared scenario_fn "array" (VRef 0) [];
        addLabel "array" ["missing"; "push"]) (empty_state true [DArr []])).

(** A Definition built with [create] from a number, not registered. *)
Definition created_number : state :=
  snd (create (VNum 1) None None (empty_state true [])).

(** * Properties *)

Ltac munfold :=
  unfold bind, ret, throw, read, modify, emit in *; simpl in *.

(** ** Insertion-ordered maps *)

Section OrderedMapFacts.
Context {K V : Type} `{EqDecision K}.
Implicit Types (k : K) (v : V) (m : list (K * V)).

Lemma map_get_set_eq k v m : map_get k (map_set k v m) = Some v.
Proof.
  induction m as [|[k' v'] m IH]; simpl.
  - by rewrite decide_True.
  - destruct (decide (k = k')) as [->|Hne]; simpl.
    + by rewrite decide_True.
    + by rewrite decide_False.
Qed.

Lemma map_get_set_ne k k' v m :
  k ≠ k' → map_get k' (map_set k v m) = map_get k' m.
Proof.
  intros Hne. induction m as [|[k0 v0] m IH]; simpl.
  - by rewrite decide_False.
  - destruct (decide (k = k0)) as [->|Hne0]; simpl.
    + by rewrite !decide_False.
    + destruct (decide (k' = k0)); [done|apply IH].
Qed.
End OrderedMapFacts.

(** ** Sets and keys *)

Lemma set_add_elem x y s : y ∈ set_add x s ↔ y = x ∨ y ∈ s.
Proof.
  unfold set_add. case_bool_decide as Hin.
  - split; [by right|]. by intros [->|?].
  - rewrite elem_of_app, list_elem_of_singleton. tauto.
Qed.

Lemma set_add_NoDup x s : NoDup s → NoDup (set_add x s).
Proof.
  intros Hnd. unfold set_add. case_bool_decide as Hin; [done|].
  apply NoDup_app. split; [done|]. split; [|apply NoDup_singleton].
  intros y Hy ->%list_elem_of_singleton. done.
Qed.


Lemma map_set_keys {V} (k : string) (v : V) (m : list (string * V)) :
  map fst (map_set k v m) = set_add k (map fst m).
Proof.
  unfold set_add. induction m as [|[k' v'] m IH]; simpl; [done|].
  destruct (decide (k = k')) as [->|Hne]; simpl.
  - rewrite bool_decide_true; [done|]. apply elem_of_cons. by left.
  - rewrite IH. case_bool_decide as Hin.
    + rewrite bool_decide_true; [done|]. apply elem_of_cons. by right.
    + rewrite bool_decide_false; [done|].
      intros [?|?]%elem_of_cons; done.
Qed.

Lemma map_get_keys {V} (k : string) (m : list (string * V)) :
  k ∈ map fst m ↔ is_Some (map_get k m).
Proof.
  induction m as [|[k' v'] m IH]; simpl.
  - split; [by intros ?%elem_of_nil|by intros [? ?]].
  - destruct (decide (k = k')) as [->|Hne].
    + split; [by eexists|]. intros _. apply elem_of_cons. by left.
    + rewrite elem_of_cons, IH. split; [by intros [?|?]|by right].
Qed.

(** ** The tag store *)

Lemma getTag_get tagName s :
  getTag tagName s = default [] (map_get tagName (_tags (container s))).
Proof.
  unfold getTag, map_has. by destruct (map_get tagName _).
Qed.

Lemma with_default_get {K V} `{EqDecision K} (k : K) (m : list (K * list V)) :
  (if map_has k m then default [] (map_get k m) else []) = default [] (map_get k m).
Proof. unfold map_has. by destruct (map_get k m). Qed.

Lemma tag_insert_lookup service p name service' tags :
  default [] (map_get service' (default [] (map_get name (tag_insert service p tags))))
  = default [] (map_get service' (default [] (map_get name tags)))
    ++ (if decide (payload_name p = name ∧ service = service') then [p] else []).
Proof.
  unfold tag_insert, tagstore, tagged in *.
  rewrite (with_default_get (payload_name p) tags), with_default_get.
  destruct (decide (payload_name p = name)) as [<-|Hn].
  - rewrite map_get_set_eq. simpl.
    destruct (decide (service = service')) as [<-|Hs].
    + rewrite map_get_set_eq. simpl. by rewrite decide_True by (split; reflexivity).
    + rewrite map_get_set_ne by done. rewrite decide_False by tauto.
      by rewrite app_nil_r.
  - rewrite map_get_set_ne by done. rewrite decide_False by tauto.
    by rewrite app_nil_r.
Qed.

Lemma tag_one_ok service t p s :
  normalizeTag t = Ok p →
  tag_one service t s
  = (Ok tt, with_container
              (with_tags (tag_insert service p (_tags (container s))) (container s)) s).
Proof. intros Hn. unfold tag_one. by rewrite Hn. Qed.

Lemma tagsOf_tag_one service t p name service' s :
  normalizeTag t = Ok p →
  tagsOf name service' (snd (tag_one service t s))
  = tagsOf name service' s
    ++ (if decide (payload_name p = name ∧ service = service') then [p] else []).
Proof.
  intros Hn. rewrite (tag_one_ok _ _ _ _ Hn). unfold tagsOf.
  rewrite !getTag_get. simpl. apply tag_insert_lookup.
Qed.

Lemma forEach_app {A} (f : A → M unit) xs ys s :
  forEach f (xs ++ ys) s
  = match forEach f xs s with
    | (Ok _, s') => forEach f ys s'
    | (Throw e, s') => (Throw e, s')
    end.
Proof.
  revert s. induction xs as [|x xs IH]; intros s; simpl; [done|].
  unfold bind. destruct (f x s) as [[[]|e] s']; [apply IH|done].
Qed.

Lemma forEach_cons_ok {A} (f : A → M unit) x xs s s1 :
  f x s = (Ok tt, s1) → forEach f (x :: xs) s = forEach f xs s1.
Proof. intros H. simpl. unfold bind. by rewrite H. Qed.

Lemma tag_single service t s :
  tag service [t] s = tag_one service t s.
Proof.
  unfold tag. simpl. unfold bind, ret.
  by destruct (tag_one service t s) as [[[]|e] s'].
Qed.

(** X1. Interleaved with calls for other services and other tag names, the
    calls for one service under one name append their payloads in call
    order, and nothing else is added to that list. *)
Lemma tag_calls_recorded name service calls s :
  Forall (λ c, ∃ p, normalizeTag (snd c) = Ok p) calls →
  ∃ s', tag_calls calls s = (Ok tt, s')
        ∧ tagsOf name service s' = tagsOf name service s ++ recorded name service calls.
Proof.
  intros Hwf. revert s. induction Hwf as [|[sv t] calls [p Hp] _ IH]; intros s.
  - exists s. split; [done|]. simpl. by rewrite app_nil_r.
  - simpl in Hp.
    pose proof (tagsOf_tag_one sv t p name service s Hp) as Ht.
    pose proof (tag_one_ok sv t p s Hp) as Hone.
    rewrite Hone in Ht. simpl in Ht.
    destruct (IH (with_container
                    (with_tags (tag_insert sv p (_tags (container s))) (container s)) s))
      as (s' & Hrun & Hs').
    exists s'. split.
    + unfold tag_calls. erewrite forEach_cons_ok; [exact Hrun|].
      simpl. by rewrite tag_single.
    + rewrite Hs', Ht. simpl. rewrite Hp. by rewrite app_assoc.
Qed.

(** C7. [normalizeTag] turns a bare string [s] into the payload [{name: s}],
    keeps a plain object that has a [name] property as it is, and raises the
    invalid-tag error on every other value; [tag] raises that error as soon
    as one of its tags is such a value. *)
Theorem normalizeTag_shapes (t : tagspec) :
  (∀ s, t = TStr s → normalizeTag t = Ok [("name", FStr s)])
  ∧ (∀ props, t = TObj true props → has props "name" = true →
       normalizeTag t = Ok props)
  ∧ ((∀ s, t ≠ TStr s) →
     (∀ props, has props "name" = true → t ≠ TObj true props) →
     normalizeTag t = Throw InvalidTag
     ∧ ∀ service before after st,
         fst (tag service (before ++ t :: after) st) = Throw InvalidTag).
Proof.
  split; [|split].
  - by intros s ->.
  - intros props -> Hn. simpl. by rewrite Hn.
  - intros Hstr Hobj.
    assert (normalizeTag t = Throw InvalidTag) as Hbad.
    { destruct t as [s|[] props|]; simpl; try done.
      - by destruct (Hstr s).
      - destruct (has props "name") eqn:Hn; [|done].
        by destruct (Hobj props Hn). }
    split; [exact Hbad|].
    intros service before after st. unfold tag. rewrite forEach_app.
    revert st. induction before as [|b before IH]; intros st.
    + simpl. unfold bind, tag_one. by rewrite Hbad.
    + simpl. unfold bind at 1.
      destruct (tag_one service b st) as [[[]|e] st'] eqn:Hb.
      * apply IH.
      * unfold tag_one in Hb. destruct (normalizeTag b) as [q|e'] eqn:Hq.
        -- discriminate.
        -- unfold throw in Hb. injection Hb as <- <-.
           destruct b as [s|[] props|]; simpl in Hq;
             try destruct (has props "name"); try discriminate;
             by injection Hq as <-.
Qed.

(** C8. Tagging one service under one tag name n times, in n calls or in one
    call with n tags, appends the n normalized payloads to the list kept for
    that service under that name, in call order and without merging equal
    payloads: a list that was empty ends with exactly n entries. *)
Theorem tag_n_times_n_entries service name (specs : list tagspec)
  (ps : list payload) st :
  Forall2 (λ t p, normalizeTag t = Ok p ∧ payload_name p = name) specs ps →
  ∃ st',
    forEach (λ t, tag service [t]) specs st = (Ok tt, st')
    ∧ tag service specs st = (Ok tt, st')
    ∧ tagsOf name service st' = tagsOf name service st ++ ps
    ∧ (tagsOf name service st = [] →
       default [] (map_get service (getTag name st')) = ps
       ∧ length (tagsOf name service st') = length specs).
Proof.
  intros Hall.
  assert (∃ st', forEach (λ t, tag service [t]) specs st = (Ok tt, st')
                 ∧ tag service specs st = (Ok tt, st')
                 ∧ tagsOf name service st' = tagsOf name service st ++ ps)
    as (st' & H1 & H2 & H3).
  { revert st. induction Hall as [|t p specs ps [Hp Hname] _ IH]; intros st.
    - exists st. simpl. by rewrite app_nil_r.
    - pose proof (tagsOf_tag_one service t p name service st Hp) as Ht.
      pose proof (tag_one_ok service t p st Hp) as Hone.
      rewrite Hone in Ht. simpl in Ht.
      destruct (IH (with_container
                      (with_tags (tag_insert service p (_tags (container st)))
                                 (container st)) st)) as (st' & Hrun & Hrun' & Hs').
      exists st'. split; [|split].
      + erewrite forEach_cons_ok; [exact Hrun|]. by rewrite tag_single.
      + unfold tag. erewrite forEach_cons_ok; [exact Hrun'|exact Hone].
      + rewrite Hs', Ht. rewrite decide_True by done. by rewrite <- app_assoc. }
  exists st'. split; [done|]. split; [done|]. split; [done|].
  intros Hempty. fold (tagsOf name service st'). rewrite H3, Hempty. simpl.
  split; [done|]. symmetry. eapply Forall2_length, Hall.
Qed.

(** C10. [tag] never looks at the registered definitions: for every service
    id, registered or not, a well-formed tag is accepted, filed last in the
    list that [getTag] shows for that id, and the definitions stay as they
    were; [addLabel] on an id without a definition raises instead. *)
Theorem tag_ignores_registration service (t : tagspec) (p : payload) labels st :
  normalizeTag t = Ok p →
  ∃ st',
    tag service [t] st = (Ok tt, st')
    ∧ default [] (map_get service (getTag (payload_name p) st'))
      = default [] (map_get service (getTag (payload_name p) st)) ++ [p]
    ∧ _definitions (container st') = _definitions (container st)
    ∧ (map_get service (_definitions (container st)) = None →
       fst (addLabel service labels st) = Throw (ServiceNotDefined service)).
Proof.
  intros Hp. eexists. rewrite tag_single.
  pose proof (tagsOf_tag_one service t p (payload_name p) service st Hp) as Ht.
  rewrite (tag_one_ok _ _ _ _ Hp) in *. simpl in Ht.
  rewrite decide_True in Ht by done.
  split; [reflexivity|]. split; [exact Ht|]. split; [done|].
  intros Hnone. unfold addLabel, getDefinition. munfold. by rewrite Hnone.
Qed.

(** ** Lookups and registration *)

Section EngineProperties.
Variable call_fn : user_functions.

(** C6. On a service id that was never registered, [get], [getDefinition],
    [getResolver] and [addLabel] all raise the service-not-defined error for
    that id; none of them returns a value and the state is left as it was. *)
Theorem unknown_service_raises (serviceId : string) (labels : list string) st :
  map_get serviceId (_definitions (container st)) = None →
  get call_fn serviceId st = (Throw (ServiceNotDefined serviceId), st)
  ∧ getDefinition serviceId st = (Throw (ServiceNotDefined serviceId), st)
  ∧ getResolver serviceId st = (Throw (ServiceNotDefined serviceId), st)
  ∧ addLabel serviceId labels st = (Throw (ServiceNotDefined serviceId), st).
Proof.
  intros Hnone.
  assert (getDefinition serviceId st = (Throw (ServiceNotDefined serviceId), st)) as Hd.
  { unfold getDefinition. munfold. by rewrite Hnone. }
  unfold get, getResolver, addLabel, bind. by rewrite Hd.
Qed.

(** The guard of [setRaw] negates its argument before testing it, so it
    tests a boolean and never fires. *)
Lemma setRaw_guard_never_fires (definition : xval) :
  instanceof_Definition (js_not definition) = false.
Proof. reflexivity. Qed.

(** What [setRaw] does with an argument that is not a Definition: the call
    of its [compile] method fails, before the definitions are touched. *)
Lemma setRaw_non_definition serviceId (definition : xval) configurators st :
  instanceof_Definition definition = false →
  setRaw call_fn serviceId definition configurators st = (Throw TypeError, st).
Proof. by destruct definition. Qed.

End EngineProperties.

(** C2 (the code departs from it). [setRaw('x', 42)] on a new container does
    not raise the raw-definition error: the guard is skipped and the call ends
    in a type error; the definitions are unchanged. *)
Theorem setRaw_number_type_error :
  ∀ call_fn,
    setRaw call_fn "x" (XVal (VNum 42)) [] (empty_state true [])
    = (Throw TypeError, empty_state true [])
    ∧ setRaw call_fn "x" (XVal (VNum 42)) [] (empty_state true [])
      ≠ (Throw RawNotDefinition, empty_state true []).
Proof. intros call_fn. split; [reflexivity|discriminate]. Qed.

(** ** Sorted iteration over a tag *)

Section StableSort.
Context {A : Type} (comparefn : A → A → Z) (rank : A → Z) (P : A → Prop).
Hypothesis comparefn_rank :
  ∀ x y, P x → P y → (0 <? comparefn x y) = (rank y <? rank x).

Lemma sort_insert_perm x l : Permutation (x :: l) (sort_insert comparefn x l).
Proof.
  induction l as [|y l IH]; simpl; [done|].
  destruct (0 <? comparefn x y); [|done].
  etrans; [apply perm_swap|]. by constructor.
Qed.

Lemma Array_sort_perm l : Permutation l (Array_sort comparefn l).
Proof.
  induction l as [|x l IH]; simpl; [done|].
  etrans; [|apply sort_insert_perm]. by constructor.
Qed.

Lemma sort_insert_sorted x l :
  P x → Forall P l →
  StronglySorted (λ a b, rank a ≤ rank b) l →
  StronglySorted (λ a b, rank a ≤ rank b) (sort_insert comparefn x l).
Proof.
  intros Hx Hl Hs. induction Hs as [|y l Hs IH Hy]; simpl.
  - repeat constructor.
  - inversion_clear Hl as [|? ? Py Pl].
    rewrite comparefn_rank by done.
    destruct (Z.ltb_spec (rank y) (rank x)) as [Hlt|Hge].
    + constructor; [by apply IH|].
      eapply Permutation_Forall; [apply sort_insert_perm|].
      constructor; [lia|done].
    + constructor; [by constructor|].
      constructor; [done|].
      eapply Forall_impl; [exact Hy|]. intros z Hz. simpl in Hz. lia.
Qed.

Lemma Array_sort_sorted l :
  Forall P l → StronglySorted (λ a b, rank a ≤ rank b) (Array_sort comparefn l).
Proof.
  induction 1 as [|x l Hx Hl IH]; simpl; [constructor|].
  apply sort_insert_sorted; [done| |done].
  eapply Permutation_Forall; [apply Array_sort_perm|done].
Qed.

Lemma sort_insert_stable k x l :
  P x → Forall P l →
  filter (λ a, rank a = k) (sort_insert comparefn x l)
  = filter (λ a, rank a = k) (x :: l).
Proof.
  intros Hx Hl. induction Hl as [|y l Py Pl IH]; simpl; [done|].
  rewrite comparefn_rank by done.
  destruct (Z.ltb_spec (rank y) (rank x)) as [Hlt|Hge]; [|done].
  rewrite (filter_cons _ y), IH, !filter_cons.
  repeat case_decide; try done; lia.
Qed.

Lemma Array_sort_stable k l :
  Forall P l →
  filter (λ a, rank a = k) (Array_sort comparefn l) = filter (λ a, rank a = k) l.
Proof.
  induction 1 as [|x l Hx Hl IH]; simpl; [done|].
  rewrite sort_insert_stable; [|done|].
  - rewrite !filter_cons. by rewrite IH.
  - eapply Permutation_Forall; [apply Array_sort_perm|done].
Qed.
End StableSort.

Lemma StronglySorted_weaken {A} (R1 R2 : A → A → Prop) l :
  (∀ a b, R1 a b → R2 a b) → StronglySorted R1 l → StronglySorted R2 l.
Proof.
  intros Himp. induction 1 as [|x l _ IH Hall]; constructor; [done|].
  eapply Forall_impl; [exact Hall|]. intros b. apply Himp.
Qed.

Lemma compare_pairs_rank StringToNumber baseGet (o : sortOptions)
  (x y : string * payload) :
  order o = -1 ∨ order o = 1 →
  numeric_at baseGet (field o) x → numeric_at baseGet (field o) y →
  (0 <? compare_pairs StringToNumber baseGet o x y)
  = (order o * sort_key baseGet (field o) y <? order o * sort_key baseGet (field o) x).
Proof.
  intros Ho [vx Hx] [vy Hy]. unfold compare_pairs, sort_key.
  rewrite Hx, Hy. simpl.
  destruct (Z.ltb_spec vx vy), (Z.ltb_spec vy vx); destruct Ho as [-> | ->];
    simpl; lia.
Qed.

(** [_.get] on a key without dot or bracket that objects do not inherit
    reads the own property of that name. *)
Lemma get_or_own baseGet (tag : payload) (path : string) (defaultValue : fval) :
  is_key path = true → path ∉ Object_prototype →
  get_or baseGet tag path defaultValue
  = match map_get path tag with
    | None | Some FUndef => defaultValue
    | Some v => v
    end.
Proof.
  intros Hkey Hown. unfold get_or. rewrite Hkey.
  rewrite bool_decide_false by done. simpl.
  by destruct (map_get path tag) as [[]|].
Qed.

Lemma sort_key_own baseGet (fld : string) (a : string * payload) :
  is_key fld = true → fld ∉ Object_prototype →
  numeric_at baseGet fld a →
  sort_key baseGet fld a = own_number fld (snd a).
Proof.
  intros Hkey Hown [z Hz]. unfold sort_key, own_number.
  rewrite get_or_own in * by done.
  by destruct (map_get fld (snd a)) as [[]|].
Qed.

(** What a sequence of well-formed [tag] calls leaves under one tag name:
    the services in the order of their first call, each with its payloads
    in call order. *)
Lemma tag_calls_spec name calls st :
  Forall (λ c, ∃ p, normalizeTag (snd c) = Ok p) calls →
  ∃ st',
    tag_calls calls st = (Ok tt, st')
    ∧ map fst (getTag name st') = first_tagged name calls (map fst (getTag name st))
    ∧ ∀ service,
        tagsOf name service st' = tagsOf name service st ++ recorded name service calls.
Proof.
  intros Hwf. revert st. induction Hwf as [|[sv t] calls [p Hp] _ IH]; intros st.
  - exists st. split; [done|]. split; [done|]. intros service. simpl.
    by rewrite app_nil_r.
  - simpl in Hp.
    pose proof (tag_one_ok sv t p st Hp) as Hone.
    destruct (IH (with_container
                    (with_tags (tag_insert sv p (_tags (container st))) (container st)) st))
      as (st' & Hrun & Hkeys & Hlists).
    exists st'. split; [|split].
    + unfold tag_calls. erewrite forEach_cons_ok; [exact Hrun|].
      simpl. by rewrite tag_single.
    + rewrite Hkeys. unfold first_tagged. simpl. rewrite Hp. f_equal.
      rewrite !getTag_get. simpl. unfold tag_insert, tagstore, tagged in *.
      rewrite (with_default_get (payload_name p) (_tags (container st))),
        with_default_get.
      destruct (decide (payload_name p = name)) as [<-|Hne].
      * rewrite map_get_set_eq. simpl. apply map_set_keys.
      * by rewrite map_get_set_ne.
    + intros service. rewrite Hlists.
      pose proof (tagsOf_tag_one sv t p name service st Hp) as Ht.
      rewrite Hone in Ht. simpl in Ht. rewrite Ht. simpl. rewrite Hp.
      by rewrite app_assoc.
Qed.

Lemma first_tagged_NoDup name calls seen :
  NoDup seen → NoDup (first_tagged name calls seen).
Proof.
  revert seen. induction calls as [|c calls IH]; intros seen Hnd; [done|].
  unfold first_tagged. simpl. apply IH.
  destruct (normalizeTag (snd c)) as [p|e]; [|done].
  destruct (decide (payload_name p = name)); [|done].
  by apply set_add_NoDup.
Qed.

Lemma flat_map_agree {A B} (f g : A → list B) (l : list A) :
  (∀ x, x ∈ l → f x = g x) → flat_map f l = flat_map g l.
Proof.
  induction l as [|x l IH]; intros Hfg; [done|]. simpl.
  rewrite Hfg by (apply elem_of_cons; by left).
  rewrite IH; [done|]. intros y Hy. apply Hfg, elem_of_cons. by right.
Qed.

(** An association list without repeated keys is given by its keys and its
    lookups. *)
Lemma flatten_by_keys (m : tagged) :
  NoDup (map fst m) →
  flatten m
  = flat_map (λ service, map (pair service) (default [] (map_get service m)))
             (map fst m).
Proof.
  induction m as [|[k v] m IH]; [done|]. simpl. intros Hnd.
  apply NoDup_cons in Hnd as [Hnot Hnd]. rewrite decide_True by done. simpl.
  f_equal. rewrite IH by done.
  apply flat_map_agree. intros k' Hk'.
  rewrite decide_False; [done|]. by intros ->.
Qed.

Lemma flatten_tag_calls name calls st st' :
  map_get name (_tags (container st)) = None →
  Forall (λ c, ∃ p, normalizeTag (snd c) = Ok p) calls →
  tag_calls calls st = (Ok tt, st') →
  flatten (getTag name st') = tagging_order name calls.
Proof.
  intros Hnone Hwf Hrun.
  destruct (tag_calls_spec name calls st Hwf) as (st'' & Hrun' & Hkeys & Hlists).
  rewrite Hrun in Hrun'. injection Hrun' as <-.
  assert (getTag name st = []) as Hempty by (by rewrite getTag_get, Hnone).
  rewrite Hempty in Hkeys. simpl in Hkeys.
  rewrite flatten_by_keys.
  - rewrite Hkeys. unfold tagging_order. apply flat_map_agree. intros service _.
    fold (tagsOf name service st'). rewrite Hlists. unfold tagsOf.
    by rewrite Hempty.
  - rewrite Hkeys. apply first_tagged_NoDup. constructor.
Qed.

(** C1, as the code has it. A sequence of well-formed [tag] calls is made
    under a tag name that was not in use. Without sort options [overTags]
    then visits the pairs in the order of the specification: services as
    first tagged, payloads in call order. With a non-empty field and an
    order of -1 or 1, over payloads for which [_.get] finds a number at the
    field (or nothing, then 0), it visits the same pairs sorted by that
    number: descending for order -1, ascending for order 1, pairs with the
    same number in the order they have without sort options. For a key
    without dot or bracket that objects do not inherit, the number is the
    one held by the own property of that name. *)
Theorem overTags_sorted_by_field StringToNumber baseGet tagName (o : sortOptions)
  (calls : list (string * tagspec)) st :
  field o ≠ "" →
  order o = -1 ∨ order o = 1 →
  map_get tagName (_tags (container st)) = None →
  Forall (λ c, ∃ p, normalizeTag (snd c) = Ok p) calls →
  Forall (numeric_at baseGet (field o)) (tagging_order tagName calls) →
  ∃ st' visited,
    tag_calls calls st = (Ok tt, st')
    ∧ overTags StringToNumber baseGet tagName None st'
      = Ok (tagging_order tagName calls)
    ∧ overTags StringToNumber baseGet tagName (Some o) st' = Ok visited
    ∧ Permutation (tagging_order tagName calls) visited
    ∧ (order o = -1 →
       StronglySorted (λ a b, sort_key baseGet (field o) b
                              ≤ sort_key baseGet (field o) a) visited)
    ∧ (order o = 1 →
       StronglySorted (λ a b, sort_key baseGet (field o) a
                              ≤ sort_key baseGet (field o) b) visited)
    ∧ (∀ k, filter (λ a, sort_key baseGet (field o) a = k) visited
            = filter (λ a, sort_key baseGet (field o) a = k)
                (tagging_order tagName calls))
    ∧ (is_key (field o) = true → field o ∉ Object_prototype →
       ∀ a, a ∈ visited →
            sort_key baseGet (field o) a = own_number (field o) (snd a)).
Proof.
  intros Hfield Horder Hnone Hwf Hnum.
  destruct (tag_calls_spec tagName calls st Hwf) as (st' & Hrun & _ & _).
  pose proof (flatten_tag_calls tagName calls st st' Hnone Hwf Hrun) as Hflat.
  set (pairs := tagging_order tagName calls) in *.
  exists st', (Array_sort (compare_pairs StringToNumber baseGet o) pairs).
  pose proof (compare_pairs_rank StringToNumber baseGet o) as Hcmp.
  assert (validate o = true) as Hvalid.
  { unfold validate. destruct (String.eqb_spec (field o) ""); [done|].
    destruct Horder as [-> | ->]; reflexivity. }
  split; [exact Hrun|].
  split; [unfold overTags; by rewrite Hflat|].
  split; [unfold overTags, getSortedTags; by rewrite Hvalid, Hflat|].
  split; [apply Array_sort_perm|].
  pose proof (Array_sort_sorted (compare_pairs StringToNumber baseGet o)
                (λ a, order o * sort_key baseGet (field o) a)
                (numeric_at baseGet (field o))
                (λ x y Hx Hy, Hcmp x y Horder Hx Hy) _ Hnum) as Hsorted.
  split; [|split; [|split]].
  - intros Hm. eapply StronglySorted_weaken; [|exact Hsorted].
    intros a b Hab. simpl in Hab. lia.
  - intros Hp. eapply StronglySorted_weaken; [|exact Hsorted].
    intros a b Hab. simpl in Hab. lia.
  - intros k.
    pose proof (Array_sort_stable (compare_pairs StringToNumber baseGet o)
                  (λ a, order o * sort_key baseGet (field o) a)
                  (numeric_at baseGet (field o))
                  (λ x y Hx Hy, Hcmp x y Horder Hx Hy) (order o * k) _ Hnum)
      as Hstable.
    assert (∀ l : list (string * payload),
              filter (λ a, order o * sort_key baseGet (field o) a = order o * k) l
              = filter (λ a, sort_key baseGet (field o) a = k) l) as Hfilter.
    { intros l. apply list_filter_iff. intros a. destruct Horder; lia. }
    by rewrite <- !Hfilter.
  - intros Hkey Hown a Ha. apply sort_key_own; [done|done|].
    rewrite Forall_forall in Hnum. apply Hnum.
    by rewrite (Array_sort_perm (compare_pairs StringToNumber baseGet o) pairs).
Qed.

(** Four calls for three services, order -1. The service tagged last, with
    the largest number, is visited first, so the visit is not ascending; and
    among the three pairs with equal numbers both pairs of a come before the
    pair of b, which was tagged between them. *)
Lemma overTags_minus_one_descends :
  ∃ visited,
    overTags (λ _, None) no_path (FStr "t") (Some (mkSortOptions "order" (-1))) tied
    = Ok visited
    ∧ map (λ a, (fst a, own_number "n" (snd a))) visited
      = [("c", 4); ("a", 1); ("a", 3); ("b", 2)]
    ∧ map (λ a, (fst a, own_number "n" (snd a))) (call_order (FStr "t") tie_calls)
      = [("a", 1); ("b", 2); ("a", 3); ("c", 4)]
    ∧ ¬ StronglySorted (λ a b, sort_key no_path "order" a ≤ sort_key no_path "order" b)
          visited
    ∧ filter (λ a, sort_key no_path "order" a = 20) visited
      ≠ filter (λ a, sort_key no_path "order" a = 20)
          (call_order (FStr "t") tie_calls).
Proof.
  eexists. split; [reflexivity|]. split; [reflexivity|]. split; [reflexivity|].
  split.
  - intros Hs. inversion_clear Hs as [|? ? _ Hall].
    inversion_clear Hall as [|? ? Hab _]. vm_compute in Hab. by apply Hab.
  - vm_compute. discriminate.
Qed.

(** The theorem on the three tagged services of the test suite, order -1. *)
Lemma overTags_sorted_by_field_witness :
  ∃ st' visited,
    tag_calls [("a", TObj true t30); ("b", TObj true t20); ("c", TObj true t10)]
      (empty_state true [])
    = (Ok tt, st')
    ∧ overTags (λ _, None) no_path (FStr "t") None st'
      = Ok (tagging_order (FStr "t")
              [("a", TObj true t30); ("b", TObj true t20); ("c", TObj true t10)])
    ∧ overTags (λ _, None) no_path (FStr "t") (Some (mkSortOptions "order" (-1))) st'
      = Ok visited
    ∧ Permutation
        (tagging_order (FStr "t")
           [("a", TObj true t30); ("b", TObj true t20); ("c", TObj true t10)])
        visited
    ∧ (-1 = -1 →
       StronglySorted (λ a b, sort_key no_path "order" b ≤ sort_key no_path "order" a)
         visited)
    ∧ (-1 = 1 →
       StronglySorted (λ a b, sort_key no_path "order" a ≤ sort_key no_path "order" b)
         visited)
    ∧ (∀ k, filter (λ a, sort_key no_path "order" a = k) visited
            = filter (λ a, sort_key no_path "order" a = k)
                (tagging_order (FStr "t")
                   [("a", TObj true t30); ("b", TObj true t20); ("c", TObj true t10)]))
    ∧ (is_key "order" = true → "order" ∉ Object_prototype →
       ∀ a, a ∈ visited → sort_key no_path "order" a = own_number "order" (snd a)).
Proof.
  apply (overTags_sorted_by_field (λ _, None) no_path (FStr "t")
           (mkSortOptions "order" (-1))
           [("a", TObj true t30); ("b", TObj true t20); ("c", TObj true t10)]
           (empty_state true [])).
  - discriminate.
  - left. reflexivity.
  - reflexivity.
  - repeat constructor; eexists; reflexivity.
  - repeat constructor; eexists; reflexivity.
Defined.

(** ** Resolution *)

Section ResolutionProperties.
Variable call_fn : user_functions.

Lemma same_stores_refl st : same_stores st st.
Proof. by repeat split. Qed.

Lemma same_stores_trans st1 st2 st3 :
  same_stores st1 st2 → same_stores st2 st3 → same_stores st1 st3.
Proof. intros (?&?&?) (?&?&?). repeat split; congruence. Qed.

Lemma apply_fn_frame f this arguments st o st' :
  apply_fn call_fn f this arguments st = (o, st') →
  same_stores st st' ∧ trace st' = trace st.
Proof.
  unfold apply_fn. destruct (call_fn f this arguments (heap st)) as [[v|] h];
    intros [= <- <-]; by repeat split.
Qed.

Lemma apply_label_spec d D instance l st o st' :
  defs st !! d = Some D →
  apply_label call_fn d instance l st = (o, st') →
  same_stores st st'
  ∧ (trace st' = trace st ∧ o = Throw (LabelNotDefined l)
     ∨ trace st' = trace st ++ [EvLabel d l]).
Proof.
  intros HD. unfold apply_label, getLabel, get_def. munfold.
  destruct (map_get l (_labels (container st))) as [cb|].
  - rewrite HD.
    destruct (apply_fn call_fn cb (XDef d) _ _) as [[v|e] s1] eqn:Hcall;
      apply apply_fn_frame in Hcall as [(?&?&?) Htr]; simpl in *;
      intros [= <- <-]; (split; [by repeat split|by right]).
  - intros [= <- <-]. split; [apply same_stores_refl|by left].
Qed.

Lemma run_labels_spec d D instance ls st o st' :
  defs st !! d = Some D →
  forEach (apply_label call_fn d instance) ls st = (o, st') →
  same_stores st st'
  ∧ ∃ done_, done_ `prefix_of` ls
             ∧ trace st' = trace st ++ map (EvLabel d) done_
             ∧ (∀ u, o = Ok u → done_ = ls).
Proof.
  revert st. induction ls as [|l ls IH]; intros st HD; simpl.
  - unfold ret. intros [= <- <-]. split; [apply same_stores_refl|].
    exists []. by rewrite app_nil_r.
  - unfold bind at 1.
    destruct (apply_label call_fn d instance l st) as [[[]|e] s1] eqn:Hl;
      destruct (apply_label_spec _ _ _ _ _ _ _ HD Hl) as [Hs Htr].
    + destruct Htr as [[_ ?]|Htr]; [done|].
      intros Hrest. destruct Hs as (Hd1&Hc1&Hp1).
      destruct (IH s1) as [Hs' (done_ & Hpre & Htr' & Hall)];
        [by rewrite Hd1|exact Hrest|].
      split; [apply (same_stores_trans st s1 st'); [by repeat split|exact Hs']|].
      exists (l :: done_). split; [by apply prefix_cons|].
      split; [rewrite Htr', Htr; simpl; by rewrite <- app_assoc|].
      intros u Hu. by rewrite (Hall u Hu).
    + intros [= <- <-]. split; [done|].
      destruct Htr as [[Htr _]|Htr].
      * exists []. split; [apply prefix_nil|]. simpl. by rewrite app_nil_r.
      * exists [l]. split; [apply prefix_cons, prefix_nil|]. by split.
Qed.

Lemma run_inner_frame d r st o st' :
  run_inner call_fn d r st = (o, st') →
  same_stores st st' ∧ trace st' = trace st.
Proof.
  destruct r as [f this bound|definition|definition]; simpl.
  - apply apply_fn_frame.
  - unfold get_def. munfold. destruct (defs st !! d) as [D|]; [|by intros [= <- <-]].
    destruct (_shared D); [by intros [= <- <-]|].
    destruct (_deepClone (container st)), definition; simpl; munfold;
      intros [= <- <-]; by repeat split.
  - unfold ret. by intros [= <- <-].
Qed.

(** One run of the wrapper: the inner resolver once, then the callbacks of
    the attached labels, one each and in order of attachment, up to the first
    that raises. *)
Lemma wrapped_spec cl D st o st' :
  defs st !! owner cl = Some D →
  wrapped call_fn cl st = (o, st') →
  same_stores st st'
  ∧ ∃ done_, done_ `prefix_of` labels D
             ∧ trace st' = trace st ++ EvInner (owner cl) :: map (EvLabel (owner cl)) done_
             ∧ (∀ v, o = Ok v → done_ = labels D).
Proof.
  intros HD. unfold wrapped. unfold bind at 1. unfold emit, modify.
  unfold bind at 1.
  destruct (run_inner call_fn (owner cl) (inner cl) _) as [[v|e] s1] eqn:Hin;
    apply run_inner_frame in Hin as [(Hd1&Hc1&Hp1) Htr1]; simpl in *.
  - unfold bind at 1. unfold get_def at 1. rewrite Hd1, HD.
    unfold bind at 1.
    destruct (forEach _ (labels D) s1) as [[[]|e] s2] eqn:Hls;
      (eapply run_labels_spec in Hls as [(Hd2&Hc2&Hp2) (done_ & Hpre & Htr2 & Hall)];
       [|by rewrite Hd1]);
      intros [= <- <-];
      (split; [repeat split; congruence|]);
      exists done_; (split; [done|]);
      (split; [rewrite Htr2, Htr1; by rewrite <- app_assoc|]).
    + intros _ _. by apply (Hall ()).
    + done.
  - intros [= <- <-]. split; [by repeat split|].
    exists []. split; [apply prefix_nil|]. by rewrite Htr1.
Qed.

Lemma get_unfold serviceId d D c cl st :
  service_at st serviceId d D c cl →
  get call_fn serviceId st
  = call_resolver call_fn c (with_trace (trace st ++ [EvResolve d]) st).
Proof.
  intros (Hid & HD & Hres & _ & _).
  unfold get, getDefinition, resolve_def, get_def. munfold.
  by rewrite Hid, HD, Hres.
Qed.

Lemma call_resolver_plain c cl st :
  closures st !! c = Some cl → once cl = None →
  call_resolver call_fn c st = wrapped call_fn cl st.
Proof.
  intros Hc Ho. unfold call_resolver, get_closure. munfold. by rewrite Hc, Ho.
Qed.

Lemma call_resolver_cached c cl n r st :
  closures st !! c = Some cl → once cl = Some (n, r) → n ≤ 1 →
  call_resolver call_fn c st
  = (Ok r, with_closures
             (<[c := mkClosure (owner cl) (inner cl) (Some (n - 1, r))]> (closures st))
             st).
Proof.
  intros Hc Ho Hn. unfold call_resolver, get_closure. munfold. rewrite Hc, Ho.
  destruct (Z.ltb_spec 0 (n - 1)); [lia|done].
Qed.

Lemma call_resolver_first c cl n r st :
  closures st !! c = Some cl → once cl = Some (n, r) → 1 < n →
  call_resolver call_fn c st
  = match wrapped call_fn cl
            (with_closures
               (<[c := mkClosure (owner cl) (inner cl) (Some (n - 1, r))]> (closures st))
               st) with
    | (Ok v, s') =>
        (Ok v, with_closures
                 (<[c := mkClosure (owner cl) (inner cl) (Some (n - 1, v))]> (closures s'))
                 s')
    | (Throw e, s') => (Throw e, s')
    end.
Proof.
  intros Hc Ho Hn. unfold call_resolver, get_closure. munfold. rewrite Hc, Ho.
  destruct (Z.ltb_spec 0 (n - 1)); [|lia].
  by destruct (wrapped call_fn cl _) as [[v|e] s'].
Qed.

(** A resolver whose [_.once] counter has run down: [get] returns the cached
    value and runs nothing. *)
Lemma get_cached serviceId d D c cl n r st :
  service_at st serviceId d D c cl → once cl = Some (n, r) → n ≤ 1 →
  ∃ st', get call_fn serviceId st = (Ok r, st')
         ∧ service_at st' serviceId d D c
             (mkClosure (owner cl) (inner cl) (Some (n - 1, r)))
         ∧ trace st' = trace st ++ [EvResolve d]
         ∧ heap st' = heap st.
Proof.
  intros Hsv Ho Hn. pose proof Hsv as (Hid & HD & Hres & Hc & Hown).
  rewrite (get_unfold _ _ _ _ _ _ Hsv).
  erewrite call_resolver_cached; [|exact Hc|exact Ho|exact Hn].
  eexists. split; [reflexivity|]. split; [|done].
  repeat split; simpl; try done.
  apply list_lookup_insert_eq. by eapply lookup_lt_Some.
Qed.

Lemma gets_cached serviceId d D c cl n r st k :
  service_at st serviceId d D c cl → once cl = Some (n, r) → n ≤ 1 →
  ∃ st', gets call_fn k serviceId st = (Ok (repeat r k), st')
         ∧ trace st' = trace st ++ repeat (EvResolve d) k
         ∧ heap st' = heap st.
Proof.
  revert cl n st. induction k as [|k IH]; intros cl n st Hsv Ho Hn.
  - exists st. simpl. by rewrite app_nil_r.
  - destruct (get_cached _ _ _ _ _ _ _ _ Hsv Ho Hn) as (s1 & Hget & Hsv1 & Htr1 & Hh1).
    destruct (IH _ (n - 1) s1 Hsv1 eq_refl ltac:(lia)) as (s2 & Hgets & Htr2 & Hh2).
    exists s2. simpl. unfold bind at 1. rewrite Hget. unfold bind at 1.
    rewrite Hgets. split; [done|]. split; [|congruence].
    rewrite Htr2, Htr1. by rewrite <- app_assoc.
Qed.

(** The first [get] of a shared service that completes. *)
Lemma get_first serviceId d D c cl n r st v st1 :
  service_at st serviceId d D c cl → once cl = Some (n, r) → 1 < n →
  get call_fn serviceId st = (Ok v, st1) →
  service_at st1 serviceId d D c (mkClosure (owner cl) (inner cl) (Some (n - 1, v)))
  ∧ trace st1 = trace st ++ [EvResolve d; EvInner d] ++ map (EvLabel d) (labels D).
Proof.
  intros Hsv Ho Hn. pose proof Hsv as (Hid & HD & Hres & Hc & Hown).
  rewrite (get_unfold _ _ _ _ _ _ Hsv).
  erewrite call_resolver_first; [|exact Hc|exact Ho|exact Hn].
  destruct (wrapped call_fn cl _) as [[v'|e] s'] eqn:Hw; [|done].
  intros [= -> <-].
  eapply wrapped_spec in Hw as [(Hd1&Hc1&Hp1) (done_ & _ & Htr & Hall)];
    [|rewrite Hown; exact HD].
  simpl in *. rewrite (Hall v eq_refl) in Htr. rewrite Hown in Htr.
  split.
  - repeat split; simpl; try congruence.
    apply list_lookup_insert_eq. rewrite Hc1, length_insert.
    by eapply lookup_lt_Some.
  - rewrite Htr. by rewrite <- app_assoc.
Qed.

Lemma occurrences_cons e e' evs :
  occurrences e (e' :: evs)
  = ((if decide (e' = e) then 1 else 0) + occurrences e evs)%nat.
Proof. unfold occurrences. rewrite filter_cons. by case_decide. Qed.

Lemma occurrences_absent e evs : e ∉ evs → occurrences e evs = 0%nat.
Proof.
  induction evs as [|e' evs IH]; [done|].
  intros [Hne Hnot]%not_elem_of_cons.
  rewrite occurrences_cons, IH by done.
  by rewrite decide_False.
Qed.

Lemma since_app st st' evs : trace st' = trace st ++ evs → since st st' = evs.
Proof. intros Htr. unfold since. rewrite Htr. apply drop_app_length. Qed.

Lemma service_at_same_stores st st' serviceId d D c cl :
  same_stores st st' →
  service_at st serviceId d D c cl → service_at st' serviceId d D c cl.
Proof.
  intros (Hd & Hc & Hp) (? & ? & ? & ? & ?). repeat split; congruence.
Qed.

(** *** Resolution, stated on the user functions *)

Lemma with_heap_same st : with_heap (heap st) st = st.
Proof. by destruct st. Qed.

(** The function built by [createResolver], run in a state: its value and
    its heap are those of [inner_result]; nothing else changes. *)
Lemma run_inner_result d D r st :
  defs st !! d = Some D →
  run_inner call_fn d r st
  = (match fst (inner_result call_fn D r (heap st)) with
     | Some v => Ok v
     | None => Throw UserThrow
     end,
     with_heap (snd (inner_result call_fn D r (heap st))) st).
Proof.
  intros HD. destruct r as [f this bound|definition|definition]; simpl.
  - unfold apply_fn. by destruct (call_fn f this bound (heap st)) as [[v|] h].
  - unfold get_def. munfold. rewrite HD.
    destruct (_shared D); [simpl; by rewrite with_heap_same|].
    destruct (_deepClone (container st)), definition; simpl; munfold;
      by rewrite ?with_heap_same.
  - unfold ret. simpl. by rewrite with_heap_same.
Qed.

(** The loop over the labels, when it completes: one call per label, in
    order, each on the heap the one before left. *)
Lemma run_labels_result d D instance ls st st' :
  defs st !! d = Some D →
  forEach (apply_label call_fn d instance) ls st = (Ok tt, st') →
  heap st' = heap_after call_fn (calls_of (container st) d D instance ls) (heap st)
  ∧ length (calls_of (container st) d D instance ls) = length ls.
Proof.
  revert st. induction ls as [|l ls IH]; intros st HD.
  - simpl. unfold ret. by intros [= <-].
  - cbn [forEach]. unfold bind at 1.
    destruct (apply_label call_fn d instance l st) as [[[]|e] s1] eqn:Hl; [|done].
    intros Hrest.
    unfold apply_label, getLabel, get_def, apply_fn in Hl. munfold.
    destruct (map_get l (_labels (container st))) as [cb|] eqn:Hcb; [|done].
    rewrite HD in Hl.
    destruct (call_fn cb (XDef d) [XVal instance; XContainer; id_arg (ID D)] (heap st))
      as [[r|] h] eqn:Hcall; [|done].
    injection Hl as <-.
    apply IH in Hrest as [Hh Hlen]; [|done]. simpl in Hh, Hlen.
    unfold calls_of in *. simpl. rewrite Hcall. simpl.
    split; [exact Hh|by rewrite Hlen].
Qed.

(** One run of the wrapper that completes is one [resolution]. *)
Lemma wrapped_result cl D st v st' :
  defs st !! owner cl = Some D →
  wrapped call_fn cl st = (Ok v, st') →
  (v, heap st') = resolution call_fn (container st) (owner cl) D (inner cl) (heap st)
  ∧ fst (inner_result call_fn D (inner cl) (heap st)) = Some v
  ∧ length (label_calls (container st) (owner cl) D v) = length (labels D).
Proof.
  intros HD. unfold wrapped. unfold bind at 1. unfold emit, modify.
  unfold bind at 1. rewrite (run_inner_result _ D) by done. simpl.
  destruct (fst (inner_result call_fn D (inner cl) (heap st))) as [v'|] eqn:Hin;
    [|done].
  unfold bind at 1. unfold get_def at 1. simpl. rewrite HD.
  unfold bind at 1.
  destruct (forEach _ (labels D) _) as [[[]|e] s2] eqn:Hls; [|done].
  unfold ret. intros [= -> <-].
  apply (run_labels_result _ D) in Hls as [Hh Hlen]; [|done]. simpl in Hh, Hlen.
  unfold resolution, label_calls. rewrite Hin. simpl. by rewrite Hh.
Qed.

(** [get] of a registered service whose resolver runs (it is not behind
    [_.once], or behind one that was never called), when it completes. *)
Lemma get_resolution serviceId d D c cl st v st' :
  service_at st serviceId d D c cl →
  once cl = None ∨ once cl = Some (2, VUndef) →
  get call_fn serviceId st = (Ok v, st') →
  (v, heap st') = resolution call_fn (container st) d D (inner cl) (heap st)
  ∧ fst (inner_result call_fn D (inner cl) (heap st)) = Some v
  ∧ length (label_calls (container st) d D v) = length (labels D).
Proof.
  intros Hsv Ho. pose proof Hsv as (Hid & HD & Hrs & Hc & Hown).
  rewrite <- Hown in HD. rewrite (get_unfold _ _ _ _ _ _ Hsv).
  destruct Ho as [Ho|Ho].
  - erewrite call_resolver_plain; [|exact Hc|exact Ho].
    intros Hw. eapply wrapped_result in Hw; [|exact HD].
    by rewrite Hown in Hw.
  - erewrite call_resolver_first; [|exact Hc|exact Ho|lia].
    destruct (wrapped call_fn cl _) as [[v'|e] s'] eqn:Hw; [|done].
    intros [= -> <-]. eapply wrapped_result in Hw; [|exact HD].
    by rewrite Hown in Hw.
Qed.



(** C3, as the code has it. A service compiled as shared (what [setShared]
    registers) and not resolved yet. When the first [get] completes, it has
    made one resolution: the inner resolver has given the value, and then
    the callback of each attached label was called once, in order. Every
    later [get] completes with that same value and leaves the heap as it
    is: neither the inner resolver nor any callback is called again. *)
Theorem shared_service_resolved_once serviceId d D c cl st v st1 :
  service_at st serviceId d D c cl →
  once cl = Some (2, VUndef) →
  get call_fn serviceId st = (Ok v, st1) →
  (v, heap st1) = resolution call_fn (container st) d D (inner cl) (heap st)
  ∧ length (label_calls (container st) d D v) = length (labels D)
  ∧ ∀ n, ∃ st2,
      gets call_fn n serviceId st1 = (Ok (repeat v n), st2)
      ∧ heap st2 = heap st1.
Proof.
  intros Hsv Ho Hget.
  destruct (get_first _ _ _ _ _ _ _ _ _ _ Hsv Ho ltac:(lia) Hget) as [Hsv1 _].
  destruct (get_resolution _ _ _ _ _ _ _ _ Hsv (or_intror Ho) Hget)
    as (Hres & _ & Hlen).
  split; [exact Hres|]. split; [exact Hlen|].
  intros n.
  destruct (gets_cached _ _ _ _ _ (2 - 1) v st1 n Hsv1 eq_refl ltac:(lia))
    as (st2 & Hgets & _ & Hh).
  by exists st2.
Qed.

(** A service that is not shared: every [get] that completes has run the
    inner resolver and then one callback per attached label, in order. *)
Lemma get_plain serviceId d D c cl st v st1 :
  service_at st serviceId d D c cl → once cl = None →
  get call_fn serviceId st = (Ok v, st1) →
  service_at st1 serviceId d D c cl
  ∧ trace st1 = trace st ++ [EvResolve d; EvInner d] ++ map (EvLabel d) (labels D).
Proof.
  intros Hsv Ho. pose proof Hsv as (Hid & HD & Hres & Hc & Hown).
  rewrite (get_unfold _ _ _ _ _ _ Hsv).
  erewrite call_resolver_plain; [|exact Hc|exact Ho].
  intros Hw.
  eapply wrapped_spec in Hw as [(Hd1&Hc1&Hp1) (done_ & _ & Htr & Hall)];
    [|rewrite Hown; exact HD].
  simpl in *. rewrite (Hall v eq_refl) in Htr. rewrite Hown in Htr.
  split; [repeat split; congruence|].
  rewrite Htr. by rewrite <- app_assoc.
Qed.


Lemma run_labels_quiet d D instance ls st :
  defs st !! d = Some D →
  quiet_labels call_fn st ls →
  ∃ st', forEach (apply_label call_fn d instance) ls st = (Ok tt, st')
         ∧ same_stores st st'
         ∧ heap st `prefix_of` heap st'
         ∧ trace st' = trace st ++ map (EvLabel d) ls.
Proof.
  intros HD Hq. revert st HD Hq. induction ls as [|l ls IH]; intros st HD Hq.
  - exists st. simpl. rewrite app_nil_r. repeat split. done.
  - inversion_clear Hq as [|? ? (f & Hf & Hquiet) Hq'].
    destruct (Hquiet (XDef d) [XVal instance; XContainer; id_arg (ID D)] (heap st))
      as (r & ext & Hcall).
    set (s1 := mkState (heap st ++ ext) (defs st) (closures st) (container st)
                       (trace st ++ [EvLabel d l])).
    assert (apply_label call_fn d instance l st = (Ok tt, s1)) as Hl.
    { unfold apply_label, getLabel, get_def, apply_fn. munfold.
      by rewrite Hf, HD, Hcall. }
    destruct (IH s1) as (st' & Hrun & (Hd&Hc&Hp) & Hpre & Htr); [done|done|].
    exists st'. split; [by erewrite forEach_cons_ok|].
    split; [by repeat split|].
    split; [etrans; [|exact Hpre]; by apply prefix_app_r|].
    rewrite Htr. simpl. by rewrite <- app_assoc.
Qed.

(** One [get] of a service that is not shared, holds an object and has quiet
    label callbacks: a new cell with the content of the original. *)
Lemma get_copy serviceId d D c cl l content st :
  service_at st serviceId d D c cl →
  inner cl = Copier (VRef l) → once cl = None → _shared D = false →
  quiet_labels call_fn st (labels D) →
  _deepClone (container st) = true →
  heap st !! l = Some content →
  ∃ st', get call_fn serviceId st = (Ok (VRef (length (heap st))), st')
         ∧ same_stores st st'
         ∧ heap st ++ [content] `prefix_of` heap st'
         ∧ trace st'
           = trace st ++ [EvResolve d; EvInner d] ++ map (EvLabel d) (labels D).
Proof.
  intros Hsv Hin Ho Hsh Hq Hdeep Hl. pose proof Hsv as (Hid & HD & Hres & Hc & Hown).
  rewrite (get_unfold _ _ _ _ _ _ Hsv).
  erewrite call_resolver_plain; [|exact Hc|exact Ho].
  set (s1 := mkState (heap st ++ [content]) (defs st) (closures st) (container st)
                     (trace st ++ [EvResolve d; EvInner d])).
  destruct (run_labels_quiet d D (VRef (length (heap st))) (labels D) s1)
    as (st' & Hrun & (Hd1&Hc1&Hp1) & Hpre & Htr); [done|done|].
  exists st'. split.
  - unfold wrapped, run_inner, get_def, cloneDeep, alloc. rewrite Hin, Hown. munfold.
    rewrite HD, Hsh. unfold with_trace, with_heap. simpl.
    rewrite Hdeep. simpl. rewrite Hl. simpl. rewrite HD. rewrite <- app_assoc.
    simpl. fold s1. by rewrite Hrun.
  - split; [by repeat split|]. split; [done|].
    rewrite Htr. simpl. by rewrite <- app_assoc.
Qed.

Lemma run_labels_live d D instance ls st :
  defs st !! d = Some D →
  live_labels call_fn st ls →
  ∃ st', forEach (apply_label call_fn d instance) ls st = (Ok tt, st')
         ∧ same_stores st st'.
Proof.
  intros HD Hq. revert st HD Hq. induction ls as [|l ls IH]; intros st HD Hq.
  - exists st. by repeat split.
  - inversion_clear Hq as [|? ? (f & Hf & Hlive) Hq'].
    destruct (Hlive (XDef d) [XVal instance; XContainer; id_arg (ID D)] (heap st))
      as (r & h' & Hcall).
    set (s1 := mkState h' (defs st) (closures st) (container st)
                       (trace st ++ [EvLabel d l])).
    assert (apply_label call_fn d instance l st = (Ok tt, s1)) as Hl.
    { unfold apply_label, getLabel, get_def, apply_fn. munfold.
      by rewrite Hf, HD, Hcall. }
    destruct (IH s1) as (st' & Hrun & (Hd&Hc&Hp)); [done|done|].
    exists st'. split; [by erewrite forEach_cons_ok|]. by repeat split.
Qed.

(** [get] completes on a registered service as soon as its factory, if it
    has one, and the callbacks of its labels complete. *)
Lemma get_completes serviceId d D c cl st :
  service_at st serviceId d D c cl →
  live_labels call_fn st (labels D) →
  (∀ f this bound, inner cl = Bound f this bound → completes call_fn f) →
  ∃ v st', get call_fn serviceId st = (Ok v, st').
Proof.
  intros Hsv Hq Hfactory. pose proof Hsv as (Hid & HD & Hres & Hc & Hown).
  assert (∀ s, defs s = defs st → container s = container st →
               ∃ v s', wrapped call_fn cl s = (Ok v, s')) as Hwrapped.
  { intros s Hds Hps. unfold wrapped. unfold bind at 1. unfold emit, modify.
    unfold bind at 1.
    assert (∃ v s1, run_inner call_fn (owner cl) (inner cl)
                      (with_trace (trace s ++ [EvInner (owner cl)]) s) = (Ok v, s1))
      as (v & s1 & Hin).
    { destruct (inner cl) as [f this bound|definition|definition] eqn:Hinner; simpl.
      - destruct (Hfactory f this bound eq_refl this bound (heap s)) as (r & h' & Hcall).
        unfold apply_fn. simpl. rewrite Hcall. by eexists _, _.
      - unfold get_def. munfold. rewrite Hown, Hds, HD.
        destruct (_shared D); [by eexists _, _|].
        unfold with_trace; simpl.
        destruct (_deepClone (container s)), definition; simpl; munfold;
          by eexists _, _.
      - unfold ret. by eexists _, _. }
    rewrite Hin. pose proof Hin as Hframe.
    apply run_inner_frame in Hframe as [(Hd1&Hc1&Hp1) _]. simpl in *.
    unfold bind at 1. unfold get_def at 1. rewrite Hd1, Hown, Hds, HD.
    destruct (run_labels_live d D v (labels D) s1) as (s2 & Hrun & _);
      [congruence|unfold live_labels; by rewrite Hp1, Hps|].
    unfold bind at 1. rewrite Hrun. unfold ret. by eexists _, _. }
  rewrite (get_unfold _ _ _ _ _ _ Hsv).
  unfold call_resolver, get_closure. unfold bind at 1. simpl closures. rewrite Hc.
  destruct (once cl) as [[n r]|].
  - unfold put_closure at 1, modify, bind at 1.
    destruct (0 <? n - 1); [|unfold ret; by eexists _, _].
    destruct (Hwrapped (with_closures
                          (<[c := mkClosure (owner cl) (inner cl) (Some (n - 1, r))]>
                             (closures st))
                          (with_trace (trace st ++ [EvResolve d]) st)))
      as (v & s' & Hw); [done|done|].
    unfold bind at 1. simpl in Hw |- *. rewrite Hw.
    unfold put_closure, modify, bind, ret. by eexists _, _.
  - apply Hwrapped; done.
Qed.

Lemma gets_copy serviceId d D c cl l content n st :
  service_at st serviceId d D c cl →
  inner cl = Copier (VRef l) → once cl = None → _shared D = false →
  quiet_labels call_fn st (labels D) →
  _deepClone (container st) = true →
  heap st !! l = Some content →
  ∃ vs st',
    gets call_fn n serviceId st = (Ok vs, st')
    ∧ length vs = n
    ∧ heap st `prefix_of` heap st'
    ∧ NoDup vs
    ∧ Forall (λ v, ∃ l', v = VRef l' ∧ (length (heap st) ≤ l')%nat
                       ∧ heap st' !! l' = Some content) vs.
Proof.
  intros Hsv Hin Ho Hsh. revert st Hsv.
  induction n as [|n IH]; intros st Hsv Hq Hdeep Hl.
  - exists [], st. simpl. repeat split; try done; constructor.
  - destruct (get_copy _ _ _ _ _ _ _ _ Hsv Hin Ho Hsh Hq Hdeep Hl)
      as (s1 & Hget & (Hd1&Hc1&Hp1) & Hpre1 & _).
    destruct Hsv as (Hid & HD & Hres & Hc & Hown).
    destruct (IH s1) as (vs & st' & Hgets & Hlen & Hpre & Hnd & Hall).
    + repeat split; congruence.
    + unfold quiet_labels. by rewrite Hp1.
    + by rewrite Hp1.
    + eapply prefix_lookup_Some; [exact Hl|]. by eapply prefix_app_l.
    + pose proof (prefix_length _ _ Hpre1) as Hlen1.
      rewrite length_app in Hlen1. simpl in Hlen1.
      exists (VRef (length (heap st)) :: vs), st'.
      split; [simpl; unfold bind at 1; rewrite Hget; unfold bind at 1;
              by rewrite Hgets|].
      split; [simpl; by rewrite Hlen|].
      split; [etrans; [|exact Hpre]; by eapply prefix_app_l|].
      split.
      * constructor; [|done]. intros Hin'.
        rewrite Forall_forall in Hall.
        destruct (Hall _ Hin') as (l' & [= <-] & Hge & _). lia.
      * constructor.
        -- exists (length (heap st)). split; [done|]. split; [done|].
           eapply prefix_lookup_Some; [|exact Hpre].
           eapply prefix_lookup_Some; [|exact Hpre1].
           by apply list_lookup_middle.
        -- eapply Forall_impl; [exact Hall|].
           intros v (l' & -> & Hge & Hl'). exists l'. split; [done|].
           split; [lia|done].
Qed.

(** C4, as the code has it. A service that is not shared and holds an object
    or an array, in a container that deep-clones, whose attached labels (if
    any) have callbacks that complete and change no existing object: n calls
    of [get] complete and return n references, different from each other and
    from the original, each to a cell whose content equals that of the
    original; the original is left as it was. *)
Theorem transient_object_fresh_copies serviceId d D c cl l content n st :
  service_at st serviceId d D c cl →
  inner cl = Copier (VRef l) → once cl = None → _shared D = false →
  quiet_labels call_fn st (labels D) →
  _deepClone (container st) = true →
  heap st !! l = Some content →
  ∃ vs st',
    gets call_fn n serviceId st = (Ok vs, st')
    ∧ length vs = n
    ∧ NoDup vs
    ∧ (VRef l ∉ vs)
    ∧ (∀ v, v ∈ vs → ∃ l', v = VRef l' ∧ heap st' !! l' = Some content)
    ∧ heap st' !! l = Some content.
Proof.
  intros Hsv Hin Ho Hsh Hq Hdeep Hl.
  destruct (gets_copy _ _ _ _ _ _ _ n _ Hsv Hin Ho Hsh Hq Hdeep Hl)
    as (vs & st' & Hgets & Hlen & Hpre & Hnd & Hall).
  pose proof (lookup_lt_Some _ _ _ Hl) as Hlt.
  rewrite Forall_forall in Hall.
  exists vs, st'. split; [exact Hgets|]. split; [exact Hlen|].
  split; [exact Hnd|]. split.
  { intros Hin'. destruct (Hall _ Hin') as (l' & [= <-] & Hge & _). lia. }
  split.
  - intros v Hv. destruct (Hall _ Hv) as (l' & -> & _ & Hl'). by exists l'.
  - by eapply prefix_lookup_Some.
Qed.

Lemma label_spec d D name labelToDefine st :
  defs st !! d = Some D →
  ∃ st', label d name labelToDefine st = (Ok tt, st')
         ∧ defs st' = <[d := labelled name D]> (defs st)
         ∧ closures st' = closures st
         ∧ _definitions (container st') = _definitions (container st)
         ∧ trace st' = trace st ∧ heap st' = heap st.
Proof.
  intros HD. unfold label, get_def, put_def, defineLabel. munfold. rewrite HD.
  destruct labelToDefine; eexists; (split; [reflexivity|done]).
Qed.

Lemma attach_spec how serviceId d D c cl name st :
  service_at st serviceId d D c cl →
  ∃ st', attach how serviceId d name st = (Ok tt, st')
         ∧ service_at st' serviceId d (labelled name D) c cl
         ∧ trace st' = trace st.
Proof.
  intros (Hid & HD & Hres & Hc & Hown).
  assert (∃ st', attach how serviceId d name st = (Ok tt, st')
                 ∧ defs st' = <[d := labelled name D]> (defs st)
                 ∧ closures st' = closures st
                 ∧ _definitions (container st') = _definitions (container st)
                 ∧ trace st' = trace st) as (st' & Hrun & Hd & Hcs & Hm & Htr).
  { destruct how as [|cb]; simpl.
    - destruct (label_spec d D name None st HD) as (st' & Hl & ? & ? & ? & ? & ?).
      exists st'. unfold addLabel, getDefinition. munfold. rewrite Hid.
      unfold bind, ret. rewrite Hl. by repeat split.
    - destruct (label_spec d D name cb st HD) as (st' & Hl & ? & ? & ? & ? & ?).
      exists st'. by repeat split. }
  exists st'. split; [exact Hrun|]. split; [|exact Htr].
  repeat split; try congruence; [|exact Hres].
  rewrite Hd. apply list_lookup_insert_eq. by eapply lookup_lt_Some.
Qed.




Lemma wrapped_frame cl st o st' :
  wrapped call_fn cl st = (o, st') → same_stores st st'.
Proof.
  destruct (defs st !! owner cl) as [D|] eqn:HD.
  - intros Hw. by eapply wrapped_spec in Hw as [Hs _]; [|exact HD].
  - unfold wrapped. unfold bind at 1. unfold emit, modify. unfold bind at 1.
    destruct (run_inner call_fn (owner cl) (inner cl) _) as [[v|e] s1] eqn:Hin;
      apply run_inner_frame in Hin as [(Hd1&Hc1&Hp1) Htr1]; simpl in *.
    + unfold bind at 1. unfold get_def at 1. rewrite Hd1, HD.
      intros [= <- <-]. by repeat split.
    + intros [= <- <-]. by repeat split.
Qed.

(** Calling a resolver touches no Definition and no registry, and keeps the
    number of resolvers. *)
Lemma call_resolver_frame c st o st' :
  call_resolver call_fn c st = (o, st') →
  defs st' = defs st ∧ container st' = container st
  ∧ length (closures st') = length (closures st).
Proof.
  unfold call_resolver, get_closure. unfold bind at 1.
  destruct (closures st !! c) as [cl|] eqn:Hc.
  2:{ by intros [= <- <-]. }
  destruct (once cl) as [[n r]|].
  - unfold put_closure at 1, modify, bind at 1.
    destruct (0 <? n - 1).
    + unfold bind at 1.
      destruct (wrapped call_fn cl _) as [[v|e] s1] eqn:Hw;
        apply wrapped_frame in Hw as (Hd&Hcs&Hp);
        simpl in *; unfold put_closure, modify, bind, ret; simpl;
        intros [= <- <-]; simpl; rewrite ?length_insert, ?Hcs, ?length_insert;
        by repeat split.
    + unfold ret. intros [= <- <-]. simpl. rewrite length_insert.
      by repeat split.
  - intros Hw. apply wrapped_frame in Hw as (Hd&Hcs&Hp).
    rewrite Hcs. by repeat split.
Qed.

Lemma resolve_def_frame a st o st' :
  resolve_def call_fn a st = (o, st') →
  defs st' = defs st ∧ container st' = container st
  ∧ length (closures st') = length (closures st).
Proof.
  unfold resolve_def, get_def. unfold bind at 1.
  destruct (defs st !! a) as [D|]; [|by intros [= <- <-]].
  destruct (resolve D) as [c|]; [|by intros [= <- <-]].
  unfold emit, modify, bind. intros Hcall.
  by apply call_resolver_frame in Hcall as (Hd & Hp & Hlen).
Qed.




(** ** Registration *)

Lemma resolve_args_none (arguments : list xval) st :
  definition_args arguments = [] →
  mapM (λ arg, match arg with
               | XDef a => do v <- resolve_def call_fn a; ret (XVal v)
               | _ => ret arg
               end) arguments st = (Ok arguments, st).
Proof.
  induction arguments as [|arg rest IH]; [done|].
  destruct arg as [v|a|]; [|done|]; intros Hnone; simpl in Hnone;
    cbn [mapM]; unfold bind at 1; unfold ret at 1; unfold bind at 1;
    by rewrite (IH Hnone).
Qed.

(** Compilation completes when no argument is a Definition. *)
Lemma compile_plain d D serviceId st :
  defs st !! d = Some D →
  definition_args (args D) = [] →
  compile call_fn d serviceId st = (Ok tt, compiled_state d D serviceId st).
Proof.
  intros HD Hnone. pose proof (lookup_lt_Some _ _ _ HD) as Hlt.
  unfold compile. unfold bind at 1. unfold get_def at 1. rewrite HD.
  unfold bind at 1. unfold put_def at 1, modify.
  unfold bind at 1.
  assert (∀ s, defs s = <[d := mkDefinition (_shared D) (labels D) (context D)
                                (args D) (raw D) (Some serviceId) (resolve D)]>
                          (defs st) →
               createResolver call_fn d (raw D) s = (Ok (resolver_of D), s))
    as Hcreate.
  { intros s Hs. unfold createResolver, resolver_of.
    destruct (raw D); try done.
    unfold bind at 1. unfold get_def at 1. rewrite Hs.
    rewrite list_lookup_insert_eq by done.
    unfold bind at 1. unfold arguments. unfold bind at 1. unfold get_def at 1.
    rewrite Hs. rewrite list_lookup_insert_eq by done. simpl args.
    by rewrite resolve_args_none. }
  rewrite Hcreate by done.
  unfold wrap, new_closure, get_def, put_def. munfold.
  rewrite list_lookup_insert_eq by done. simpl.
  rewrite list_lookup_insert_eq by done.
  unfold compiled_state, compiled, with_defs. simpl.
  by rewrite list_insert_insert_eq.
Qed.

(** The steps of [setRaw] after [compile]: the entry in the definitions and
    the accessor. *)
Lemma setRaw_after_compile serviceId d configurators st :
  setRaw call_fn serviceId (XDef d) configurators st
  = match compile call_fn d serviceId st with
    | (Ok _, s1) =>
        forEach (configure_with d) configurators
          (with_container (entered serviceId d (container s1)) s1)
    | (Throw e, s1) => (Throw e, s1)
    end.
Proof.
  unfold setRaw. rewrite setRaw_guard_never_fires. unfold bind at 1.
  destruct (compile call_fn d serviceId st) as [[[]|e] s1]; [|done].
  unfold bind at 1. unfold modify at 1. unfold bind at 1. unfold isReserved, read.
  simpl. unfold entered.
  case_bool_decide; unfold bind, ret, defineProperty, modify; simpl;
    f_equal; by destruct s1 as [? ? ? []].
Qed.

Lemma get_frame serviceId st o st' :
  get call_fn serviceId st = (o, st') → container st' = container st.
Proof.
  unfold get, getDefinition. munfold.
  destruct (map_get serviceId (_definitions (container st))) as [d|].
  - intros Hres. by apply resolve_def_frame in Hres as (_ & Hp & _).
  - by intros [= <- <-].
Qed.

Lemma gets_frame n serviceId st o st' :
  gets call_fn n serviceId st = (o, st') → container st' = container st.
Proof.
  revert st o st'. induction n as [|n IH]; intros st o st'; simpl.
  - unfold ret. by intros [= <- <-].
  - unfold bind at 1.
    destruct (get call_fn serviceId st) as [[v|e] s1] eqn:Hget;
      apply get_frame in Hget.
    + unfold bind at 1.
      destruct (gets call_fn n serviceId s1) as [[vs|e] s2] eqn:Hgets;
        apply IH in Hgets; unfold ret; intros [= <- <-]; congruence.
    + intros [= <- <-]. done.
Qed.


End ResolutionProperties.

(** The theorem on the shared, labelled array of the test suite: a first
    [get], then any number more. *)
Lemma shared_service_resolved_once_witness :
  (VRef 0, heap (snd (get scenario_fn "array" shared_array)))
  = resolution scenario_fn (container shared_array) 0%nat
      (mkDefinition true ["push"] XContainer [XContainer] (VRef 0)
                    (Some "array") (Some 0%nat))
      (Copier (VRef 0)) (heap shared_array)
  ∧ length (label_calls (container shared_array) 0%nat
              (mkDefinition true ["push"] XContainer [XContainer] (VRef 0)
                            (Some "array") (Some 0%nat))
              (VRef 0))
    = length ["push"]
  ∧ ∀ n, ∃ st2,
      gets scenario_fn n "array" (snd (get scenario_fn "array" shared_array))
      = (Ok (repeat (VRef 0) n), st2)
      ∧ heap st2 = heap (snd (get scenario_fn "array" shared_array)).
Proof.
  apply (shared_service_resolved_once scenario_fn "array" 0%nat
           (mkDefinition true ["push"] XContainer [XContainer] (VRef 0)
                         (Some "array") (Some 0%nat))
           0%nat (mkClosure 0 (Copier (VRef 0)) (Some (2, VUndef)))
           shared_array (VRef 0) (snd (get scenario_fn "array" shared_array))).
  - repeat split.
  - reflexivity.
  - reflexivity.
Defined.

(** A shared array labelled missing and push before its first resolution,
    where missing has no callback. The first [get] raises; the two after it
    return undefined, not the array; and the array is still empty: the
    callback of push, which adds an element, was never called. *)
Lemma shared_first_get_raises :
  ∃ st1 st2,
    get scenario_fn "array" shared_missing_label
    = (Throw (LabelNotDefined "missing"), st1)
    ∧ gets scenario_fn 2 "array" st1 = (Ok [VUndef; VUndef], st2)
    ∧ map_get "push" (_labels (container st2)) = Some 0%nat
    ∧ heap st2 = [DArr []]
    ∧ heap_after scenario_fn
        [mkCall 0 (XDef 0) [XVal (VRef 0); XContainer; XVal (VStr "array")]]
        (heap shared_missing_label)
      = [DArr [DNum 1]].
Proof. eexists _, _. repeat split. Qed.

(** The test "inline declaration and set of label": the service is not
    shared and holds an array, the container deep-clones, and [get] returns
    a cell that holds [[1]] while the original holds [[]]. *)
Lemma labelled_copy_not_deep_equal :
  _deepClone (container labelled_array) = true
  ∧ service_at labelled_array "arr" 0
      (mkDefinition false ["push"] XContainer [XContainer] (VRef 0)
                    (Some "arr") (Some 0%nat))
      0 (mkClosure 0 (Copier (VRef 0)) None)
  ∧ get scenario_fn "arr" labelled_array
    = (Ok (VRef 1),
       mkState [DArr []; DArr [DNum 1]] (defs labelled_array)
               (closures labelled_array) (container labelled_array)
               [EvResolve 0; EvInner 0; EvLabel 0 "push"])
  ∧ ¬ (∀ l' st', get scenario_fn "arr" labelled_array = (Ok (VRef l'), st') →
                 heap st' !! l' = heap labelled_array !! 0%nat).
Proof.
  split; [reflexivity|]. split; [by repeat split|]. split; [reflexivity|].
  intros Hclaim. specialize (Hclaim 1%nat _ eq_refl). discriminate Hclaim.
Qed.

(** The theorem on the plain data service of the test suite, two calls. *)
Lemma transient_object_fresh_copies_witness :
  ∃ vs st',
    gets scenario_fn 2 "data" plain_data = (Ok vs, st')
    ∧ length vs = 2%nat
    ∧ NoDup vs
    ∧ (VRef 0 ∉ vs)
    ∧ (∀ v, v ∈ vs →
         ∃ l', v = VRef l' ∧ heap st' !! l' = Some (DObj [("data", DStr "test")]))
    ∧ heap st' !! 0%nat = Some (DObj [("data", DStr "test")]).
Proof.
  apply (transient_object_fresh_copies scenario_fn "data" 0%nat
           (mkDefinition false [] XContainer [XContainer] (VRef 0)
                         (Some "data") (Some 0%nat))
           0%nat (mkClosure 0 (Copier (VRef 0)) None) 0%nat
           (DObj [("data", DStr "test")]) 2 plain_data).
  - by repeat split.
  - reflexivity.
  - reflexivity.
  - reflexivity.
  - constructor.
  - reflexivity.
  - reflexivity.
Defined.



(** The same scenario, evaluated: the dependency was resolved once while
    the service was registered, which built the array in cell 0, and the
    factory is bound to that array. *)
Example factory_bound_to_resolved_dependency :
  arguments_result scenario_fn factory_with_dependency [XDef 0]
    (heap factory_with_dependency)
  = ([XVal (VRef 0)], [DArr []])
  ∧ closures (snd (setRaw scenario_fn "svc" (XDef 1) [] factory_with_dependency))
      !! 1%nat
    = Some (mkClosure 1 (Bound 1 XContainer [XVal (VRef 0)]) None).
Proof. split; reflexivity. Qed.

(** The theorem on a new container. *)
Lemma unknown_service_raises_witness :
  get scenario_fn "missing" (empty_state true [])
  = (Throw (ServiceNotDefined "missing"), empty_state true [])
  ∧ getDefinition "missing" (empty_state true [])
    = (Throw (ServiceNotDefined "missing"), empty_state true [])
  ∧ getResolver "missing" (empty_state true [])
    = (Throw (ServiceNotDefined "missing"), empty_state true [])
  ∧ addLabel "missing" ["push"] (empty_state true [])
    = (Throw (ServiceNotDefined "missing"), empty_state true []).
Proof.
  apply (unknown_service_raises scenario_fn "missing" ["push"] (empty_state true [])).
  reflexivity.
Defined.

(** The theorem on a service tagged concat twice, as in the test suite. *)
Lemma tag_n_times_n_entries_witness :
  ∃ st',
    forEach (λ t, tag "custom2" [t]) [TStr "concat"; TStr "concat"]
      (empty_state true [])
    = (Ok tt, st')
    ∧ tag "custom2" [TStr "concat"; TStr "concat"] (empty_state true [])
      = (Ok tt, st')
    ∧ tagsOf (FStr "concat") "custom2" st'
      = tagsOf (FStr "concat") "custom2" (empty_state true [])
        ++ [[("name", FStr "concat")]; [("name", FStr "concat")]]
    ∧ (tagsOf (FStr "concat") "custom2" (empty_state true []) = [] →
       default [] (map_get "custom2" (getTag (FStr "concat") st'))
       = [[("name", FStr "concat")]; [("name", FStr "concat")]]
       ∧ length (tagsOf (FStr "concat") "custom2" st')
         = length [TStr "concat"; TStr "concat"]).
Proof.
  apply (tag_n_times_n_entries "custom2" (FStr "concat")
           [TStr "concat"; TStr "concat"]
           [[("name", FStr "concat")]; [("name", FStr "concat")]]
           (empty_state true [])).
  repeat constructor.
Defined.

(** The theorem on a new container, which has no service at all. *)
Lemma tag_ignores_registration_witness :
  ∃ st',
    tag "ghost" [TObj true [("name", FStr "wo"); ("val", FStr "42")]]
      (empty_state true [])
    = (Ok tt, st')
    ∧ default [] (map_get "ghost" (getTag (FStr "wo") st'))
      = default [] (map_get "ghost" (getTag (FStr "wo") (empty_state true [])))
        ++ [[("name", FStr "wo"); ("val", FStr "42")]]
    ∧ _definitions (container st') = _definitions (container (empty_state true []))
    ∧ (map_get "ghost" (_definitions (container (empty_state true []))) = None →
       fst (addLabel "ghost" ["push"] (empty_state true []))
       = Throw (ServiceNotDefined "ghost")).
Proof.
  apply (tag_ignores_registration "ghost"
           (TObj true [("name", FStr "wo"); ("val", FStr "42")])
           [("name", FStr "wo"); ("val", FStr "42")] ["push"]
           (empty_state true [])).
  reflexivity.
Defined.

(** ** The scenarios of the test suite, evaluated *)

Example getTag_wo :
  getTag (FStr "wo") tagged_wo
  = [("data1", [[("name", FStr "wo")];
                [("name", FStr "wo"); ("val", FStr "42")]]);
     ("data2", [[("name", FStr "wo"); ("val", FStr "*"); ("opt", FNum 42)]])].
Proof. reflexivity. Qed.

Example overTags_descending :
  overTags (λ _, None) no_path (FStr "t") (Some (mkSortOptions "order" (-1))) three_tagged
  = Ok [("a", t30); ("b", t20); ("c", t10)].
Proof. reflexivity. Qed.

Example overTags_ascending :
  overTags (λ _, None) no_path (FStr "t") (Some (mkSortOptions "order" 1)) three_tagged
  = Ok [("c", t10); ("b", t20); ("a", t30)].
Proof. reflexivity. Qed.

Example overTags_priorities :
  match overTags (λ _, None) no_path (FStr "t") (Some (mkSortOptions "priority" (-1)))
                 priorities with
  | Ok visited => map fst visited = ["b"; "a"; "a"; "b"]
  | Throw _ => False
  end.
Proof. reflexivity. Qed.

Example overTags_zero_order_rejected :
  overTags (λ _, None) no_path (FStr "t") (Some (mkSortOptions "order" 0)) three_tagged
  = Throw ValidationError.
Proof. reflexivity. Qed.

Example shared_is_identical_copy_is_not :
  fst (get scenario_fn "array" shared_and_copy) = Ok (VRef 0)
  ∧ fst (get scenario_fn "array-c" shared_and_copy) = Ok (VRef 1)
  ∧ heap (snd (get scenario_fn "array-c" shared_and_copy)) !! 1%nat = Some (DArr []).
Proof. repeat split. Qed.

Example shared_label_called_once :
  fst (gets scenario_fn 2 "array" shared_array) = Ok [VRef 0; VRef 0]
  ∧ heap (snd (gets scenario_fn 2 "array" shared_array)) = [DArr [DNum 1]]
  ∧ trace (snd (gets scenario_fn 2 "array" shared_array))
    = [EvResolve 0; EvInner 0; EvLabel 0 "push"; EvResolve 0].
Proof. repeat split. Qed.

(** * Further properties of the code *)

(** ** Tags *)

(** The interleaving property on three calls for two services. *)
Lemma tag_calls_recorded_witness :
  ∃ s',
    tag_calls [("a", TStr "t"); ("b", TStr "t"); ("a", TObj true t30)]
      (empty_state true [])
    = (Ok tt, s')
    ∧ tagsOf (FStr "t") "a" s'
      = tagsOf (FStr "t") "a" (empty_state true [])
        ++ recorded (FStr "t") "a"
             [("a", TStr "t"); ("b", TStr "t"); ("a", TObj true t30)].
Proof.
  apply (tag_calls_recorded (FStr "t") "a"
           [("a", TStr "t"); ("b", TStr "t"); ("a", TObj true t30)]
           (empty_state true [])).
  repeat constructor; eexists; reflexivity.
Defined.

Lemma normalizeTag_error t e : normalizeTag t = Throw e → e = InvalidTag.
Proof.
  destruct t as [s|[] props|]; simpl; try destruct (has props "name");
    intros [=]; done.
Qed.

Lemma tag_all_ok service specs st :
  Forall (λ t, ∃ p, normalizeTag t = Ok p) specs →
  ∃ st', tag service specs st = (Ok tt, st').
Proof.
  intros Hall. revert st. induction Hall as [|t specs [p Hp] _ IH]; intros st.
  - by exists st.
  - destruct (IH (with_container
                    (with_tags (tag_insert service p (_tags (container st)))
                               (container st)) st)) as (st' & Hrun).
    exists st'. unfold tag. erewrite forEach_cons_ok; [exact Hrun|].
    by apply tag_one_ok.
Qed.

(** X2. [tag] with several tags stops at the first malformed one: the tags
    before it are filed as if they had been given alone, the error is the
    invalid-tag error, and the tags after it are not looked at. *)
Theorem tag_stops_at_malformed service good bad rest st :
  Forall (λ t, ∃ p, normalizeTag t = Ok p) good →
  (∀ p, normalizeTag bad ≠ Ok p) →
  fst (tag service good st) = Ok tt
  ∧ tag service (good ++ bad :: rest) st
    = (Throw InvalidTag, snd (tag service good st)).
Proof.
  intros Hgood Hbad. destruct (tag_all_ok service good st Hgood) as (st' & Hrun).
  rewrite Hrun. split; [done|]. unfold tag in *. rewrite forEach_app, Hrun.
  simpl. unfold bind, tag_one.
  destruct (normalizeTag bad) as [p|e] eqn:Hb; [by destruct (Hbad p)|].
  by rewrite (normalizeTag_error _ _ Hb).
Qed.

Lemma tag_stops_at_malformed_witness :
  fst (tag "data1" [TStr "wo"] (empty_state true [])) = Ok tt
  ∧ tag "data1" ([TStr "wo"] ++ TPrim :: [TStr "later"]) (empty_state true [])
    = (Throw InvalidTag, snd (tag "data1" [TStr "wo"] (empty_state true []))).
Proof.
  apply (tag_stops_at_malformed "data1" [TStr "wo"] TPrim [TStr "later"]
           (empty_state true [])).
  - repeat constructor. eexists. reflexivity.
  - intros p. discriminate.
Defined.

Lemma getTag_keys_tag_one service t p name st :
  normalizeTag t = Ok p →
  map fst (getTag name (snd (tag_one service t st)))
  = if decide (payload_name p = name)
    then set_add service (map fst (getTag name st))
    else map fst (getTag name st).
Proof.
  intros Hp. rewrite (tag_one_ok _ _ _ _ Hp). rewrite !getTag_get. simpl.
  unfold tag_insert, tagstore, tagged in *.
  rewrite (with_default_get (payload_name p) (_tags (container st))), with_default_get.
  destruct (decide (payload_name p = name)) as [<-|Hne].
  - rewrite map_get_set_eq. simpl. apply map_set_keys.
  - by rewrite map_get_set_ne.
Qed.

(** X3. The services listed by [getTag] for a tag name are in the order in
    which each was first tagged under that name: a sequence of well-formed
    [tag] calls adds each new service at the end and never moves one that is
    already listed. This is the order in which [overTags] without sort
    options goes through the services. *)
Theorem services_in_first_tagging_order name calls st :
  Forall (λ c, ∃ p, normalizeTag (snd c) = Ok p) calls →
  ∃ st',
    tag_calls calls st = (Ok tt, st')
    ∧ map fst (getTag name st') = first_tagged name calls (map fst (getTag name st))
    ∧ map fst (getTag name st) `prefix_of` map fst (getTag name st').
Proof.
  intros Hwf. revert st. induction Hwf as [|[sv t] calls [p Hp] _ IH]; intros st.
  - exists st. by repeat split.
  - simpl in Hp.
    pose proof (getTag_keys_tag_one sv t p name st Hp) as Hkeys.
    pose proof (tag_one_ok sv t p st Hp) as Hone. rewrite Hone in Hkeys.
    simpl in Hkeys.
    destruct (IH (with_container
                    (with_tags (tag_insert sv p (_tags (container st))) (container st)) st))
      as (st' & Hrun & Horder & Hpre).
    exists st'. split; [|split].
    + unfold tag_calls. erewrite forEach_cons_ok; [exact Hrun|].
      simpl. by rewrite tag_single.
    + rewrite Horder, Hkeys. unfold first_tagged. simpl. by rewrite Hp.
    + etrans; [|exact Hpre]. rewrite Hkeys.
      destruct (decide (payload_name p = name)); [|done].
      unfold set_add. case_bool_decide; [done|]. by apply prefix_app_r.
Qed.

Lemma services_in_first_tagging_order_witness :
  ∃ st',
    tag_calls [("b", TStr "t"); ("a", TStr "t"); ("b", TObj true t30)]
      (empty_state true [])
    = (Ok tt, st')
    ∧ map fst (getTag (FStr "t") st')
      = first_tagged (FStr "t")
          [("b", TStr "t"); ("a", TStr "t"); ("b", TObj true t30)]
          (map fst (getTag (FStr "t") (empty_state true [])))
    ∧ map fst (getTag (FStr "t") (empty_state true []))
      `prefix_of` map fst (getTag (FStr "t") st').
Proof.
  apply (services_in_first_tagging_order (FStr "t")
           [("b", TStr "t"); ("a", TStr "t"); ("b", TObj true t30)]
           (empty_state true [])).
  repeat constructor; eexists; reflexivity.
Defined.

(** ** Iteration over a tag *)

(** X4. For a tag name that was never used, [getTag] gives an empty map and
    [overTags] applies the callback to nothing, with or without valid sort
    options. *)
Theorem overTags_unused_tag StringToNumber baseGet tagName (o : sortOptions) st :
  map_get tagName (_tags (container st)) = None →
  field o ≠ "" →
  order o = -1 ∨ order o = 1 →
  getTag tagName st = []
  ∧ overTags StringToNumber baseGet tagName None st = Ok []
  ∧ overTags StringToNumber baseGet tagName (Some o) st = Ok [].
Proof.
  intros Hnone Hfield Horder.
  assert (getTag tagName st = []) as Hg by (by rewrite getTag_get, Hnone).
  assert (validate o = true) as Hvalid.
  { unfold validate. destruct (String.eqb_spec (field o) ""); [done|].
    destruct Horder as [-> | ->]; reflexivity. }
  unfold overTags, getSortedTags. by rewrite Hvalid, Hg.
Qed.

Lemma overTags_unused_tag_witness :
  getTag (FStr "other") three_tagged = []
  ∧ overTags (λ _, None) no_path (FStr "other") None three_tagged = Ok []
  ∧ overTags (λ _, None) no_path (FStr "other") (Some (mkSortOptions "order" 1)) three_tagged
    = Ok [].
Proof.
  apply (overTags_unused_tag (λ _, None) no_path (FStr "other") (mkSortOptions "order" 1)
           three_tagged).
  - reflexivity.
  - discriminate.
  - right. reflexivity.
Defined.

(** X5. With an integer order, [overTags] raises the validation error exactly
    when the field is empty or the order is neither -1 nor 1, whatever the
    tag store holds; in particular an order of 0 is refused. *)
Theorem overTags_validation StringToNumber baseGet tagName (o : sortOptions) st :
  overTags StringToNumber baseGet tagName (Some o) st = Throw ValidationError
  ↔ field o = "" ∨ (order o ≠ -1 ∧ order o ≠ 1).
Proof.
  unfold overTags, validate.
  destruct (String.eqb_spec (field o) "") as [Hf|Hf]; simpl.
  - split; [by left|done].
  - destruct (Z.leb_spec (-1) (order o)), (Z.leb_spec (order o) 1),
      (Z.eqb_spec (order o) 0); simpl; split; try done;
      try (intros _; right; lia); intros [?|[? ?]]; try done; lia.
Qed.

Lemma Array_sort_unmoved {A} (comparefn : A → A → Z) (l : list A) :
  (∀ x y, x ∈ l → y ∈ l → comparefn x y ≤ 0) → Array_sort comparefn l = l.
Proof.
  induction l as [|x l IH]; intros Hle; [done|]. simpl.
  rewrite IH.
  - destruct l as [|y l]; [done|]. simpl.
    destruct (Z.ltb_spec 0 (comparefn x y)) as [Hlt|]; [|done].
    specialize (Hle x y). rewrite !elem_of_cons in Hle.
    assert (comparefn x y ≤ 0) by (apply Hle; auto). lia.
  - intros a b Ha Hb. apply Hle; apply elem_of_cons; by right.
Qed.

(** X6. When [_.get] finds the same number at the sort field for every
    payload under the tag, sorting changes nothing: [overTags] with valid
    sort options visits the pairs in the order it visits them without sort
    options. *)
Theorem overTags_equal_keys_keep_order StringToNumber baseGet tagName (o : sortOptions)
  (k : Z) st :
  field o ≠ "" →
  order o = -1 ∨ order o = 1 →
  Forall (λ a, get_or baseGet (snd a) (field o) (FNum 0) = FNum k)
         (flatten (getTag tagName st)) →
  overTags StringToNumber baseGet tagName (Some o) st
  = overTags StringToNumber baseGet tagName None st.
Proof.
  intros Hfield Horder Hall.
  assert (validate o = true) as Hvalid.
  { unfold validate. destruct (String.eqb_spec (field o) ""); [done|].
    destruct Horder as [-> | ->]; reflexivity. }
  unfold overTags, getSortedTags. rewrite Hvalid. f_equal.
  apply Array_sort_unmoved. intros x y Hx Hy.
  rewrite Forall_forall in Hall. unfold compare_pairs.
  rewrite (Hall x Hx), (Hall y Hy). simpl. by rewrite Z.ltb_irrefl.
Qed.

Lemma overTags_equal_keys_keep_order_witness :
  overTags (λ _, None) no_path (FStr "t") (Some (mkSortOptions "weight" (-1))) three_tagged
  = overTags (λ _, None) no_path (FStr "t") None three_tagged.
Proof.
  apply (overTags_equal_keys_keep_order (λ _, None) no_path (FStr "t")
           (mkSortOptions "weight" (-1)) 0 three_tagged).
  - discriminate.
  - left. reflexivity.
  - repeat constructor.
Defined.

Lemma StronglySorted_snoc {A} (R : A → A → Prop) l x :
  StronglySorted R l → Forall (λ y, R y x) l → StronglySorted R (l ++ [x]).
Proof.
  induction 1 as [|y l Hs IH Hy]; intros Hall; simpl.
  - repeat constructor.
  - inversion_clear Hall as [|? ? Hyx Hrest].
    constructor; [by apply IH|]. apply Forall_app. split; [done|].
    by constructor.
Qed.

Lemma StronglySorted_rev {A} (R : A → A → Prop) l :
  StronglySorted R l → StronglySorted (λ a b, R b a) (rev l).
Proof.
  induction 1 as [|x l Hs IH Hx]; simpl; [constructor|].
  apply StronglySorted_snoc; [done|].
  apply Forall_forall. intros y Hy. rewrite Forall_forall in Hx.
  apply Hx. apply list_elem_of_In, in_rev. by apply list_elem_of_In.
Qed.

Lemma sorted_perm_unique {A} (key : A → Z) (l1 l2 : list A) :
  StronglySorted (λ a b, key a ≤ key b) l1 →
  StronglySorted (λ a b, key a ≤ key b) l2 →
  Permutation l1 l2 →
  NoDup (map key l1) →
  l1 = l2.
Proof.
  revert l2. induction l1 as [|x l1 IH]; intros l2 Hs1 Hs2 Hperm Hnd.
  - by apply Permutation_nil in Hperm.
  - destruct l2 as [|y l2].
    { symmetry in Hperm. by apply Permutation_nil in Hperm. }
    inversion_clear Hs1 as [|? ? Hs1' Hx]. inversion_clear Hs2 as [|? ? Hs2' Hy].
    rewrite Forall_forall in Hx, Hy.
    simpl in Hnd. apply NoDup_cons in Hnd as [Hnotin Hnd'].
    assert (x ∈ y :: l2) as Hxin.
    { rewrite <- Hperm. apply elem_of_cons. by left. }
    assert (y ∈ x :: l1) as Hyin.
    { rewrite Hperm. apply elem_of_cons. by left. }
    assert (y = x) as ->.
    { apply elem_of_cons in Hyin as [?|Hyin]; [done|].
      apply elem_of_cons in Hxin as [?|Hxin]; [done|].
      pose proof (Hx y Hyin). pose proof (Hy x Hxin).
      exfalso. apply Hnotin. replace (key x) with (key y) by lia.
      by apply (list_elem_of_fmap_2 key). }
    f_equal. apply IH; try done. by eapply Permutation_cons_inv.
Qed.

(** X7. When [_.get] finds a number at the sort field for every payload
    under the tag, and no number twice, the visit with order 1 is the visit
    with order -1 read backwards. *)
Theorem overTags_orders_reverse StringToNumber baseGet tagName (fld : string) st :
  fld ≠ "" →
  Forall (numeric_at baseGet fld) (flatten (getTag tagName st)) →
  NoDup (map (sort_key baseGet fld) (flatten (getTag tagName st))) →
  ∃ visited,
    overTags StringToNumber baseGet tagName (Some (mkSortOptions fld (-1))) st = Ok visited
    ∧ overTags StringToNumber baseGet tagName (Some (mkSortOptions fld 1)) st
      = Ok (rev visited).
Proof.
  intros Hfield Hnum Hnd.
  set (pairs := flatten (getTag tagName st)) in *.
  set (down := Array_sort (compare_pairs StringToNumber baseGet (mkSortOptions fld (-1))) pairs).
  set (up := Array_sort (compare_pairs StringToNumber baseGet (mkSortOptions fld 1)) pairs).
  assert (validate (mkSortOptions fld (-1)) = true
          ∧ validate (mkSortOptions fld 1) = true) as [Hv1 Hv2].
  { unfold validate. simpl. by destruct (String.eqb_spec fld ""). }
  exists down. unfold overTags, getSortedTags. rewrite Hv1, Hv2.
  split; [done|]. f_equal. fold pairs. fold up.
  pose proof (Array_sort_sorted (compare_pairs StringToNumber baseGet (mkSortOptions fld 1))
                (λ a, 1 * sort_key baseGet fld a) (numeric_at baseGet fld)
                (λ x y Hx Hy, compare_pairs_rank StringToNumber baseGet (mkSortOptions fld 1)
                                x y (or_intror eq_refl) Hx Hy) pairs Hnum) as Hup.
  pose proof (Array_sort_sorted (compare_pairs StringToNumber baseGet (mkSortOptions fld (-1)))
                (λ a, -1 * sort_key baseGet fld a) (numeric_at baseGet fld)
                (λ x y Hx Hy, compare_pairs_rank StringToNumber baseGet (mkSortOptions fld (-1))
                                x y (or_introl eq_refl) Hx Hy) pairs Hnum) as Hdown.
  fold up in Hup. fold down in Hdown.
  apply (sorted_perm_unique (sort_key baseGet fld)).
  - eapply StronglySorted_weaken; [|exact Hup]. intros a b Hab. simpl in Hab. lia.
  - apply StronglySorted_rev in Hdown.
    eapply StronglySorted_weaken; [|exact Hdown]. intros a b Hab. simpl in Hab. lia.
  - etrans; [symmetry; apply Array_sort_perm|].
    etrans; [apply Array_sort_perm|]. apply Permutation_rev.
  - assert (Permutation (map (sort_key baseGet fld) pairs) (map (sort_key baseGet fld) up)) as Hp
      by apply Permutation_map, Array_sort_perm.
    by rewrite <- Hp.
Qed.

Lemma overTags_orders_reverse_witness :
  ∃ visited,
    overTags (λ _, None) no_path (FStr "t") (Some (mkSortOptions "order" (-1))) three_tagged
    = Ok visited
    ∧ overTags (λ _, None) no_path (FStr "t") (Some (mkSortOptions "order" 1)) three_tagged
      = Ok (rev visited).
Proof.
  apply (overTags_orders_reverse (λ _, None) no_path (FStr "t") "order" three_tagged).
  - discriminate.
  - repeat constructor; eexists; reflexivity.
  - vm_compute. repeat constructor; rewrite ?elem_of_cons, ?elem_of_nil;
      intros H; repeat destruct H as [H|H]; discriminate || done.
Defined.

(** ** Registration and resolution *)

Section FurtherResolution.
Variable call_fn : user_functions.

Lemma insert_last {A} (l : list A) (x y : A) :
  <[length l := y]> (l ++ [x]) = l ++ [y].
Proof. rewrite insert_app_r_alt by lia. by rewrite Nat.sub_diag. Qed.

(** Whether a container is intact is a matter of its reserved names and
    its accessors; entering a service whose id is no method name keeps it
    intact. *)
Lemma intact_container st st' :
  container st' = container st → intact st' = intact st.
Proof. unfold intact. by intros ->. Qed.

Lemma intact_entered serviceId d st st' :
  intact st = true → shadows serviceId = false →
  container st' = entered serviceId d (container st) →
  intact st' = true.
Proof.
  unfold intact, shadows. intros Hin Hfree Hp. rewrite Hp.
  apply andb_true_iff in Hin as [Hres Hacc]. apply andb_true_iff.
  split; [exact Hres|].
  apply bool_decide_eq_false in Hfree.
  rewrite forallb_forall in Hres, Hacc |- *.
  intros m Hm. specialize (Hacc m Hm). simpl.
  destruct (bool_decide (serviceId ∈ _reserved (container st))) eqn:Hreserved;
    [exact Hacc|].
  apply bool_decide_eq_false in Hreserved.
  apply negb_true_iff, bool_decide_eq_false.
  apply negb_true_iff, bool_decide_eq_false in Hacc.
  rewrite set_add_elem. intros [->|?]; [|done].
  apply in_app_or in Hm as [Hm|Hm].
  - by apply Hfree, list_elem_of_In.
  - apply Hreserved. specialize (Hres _ Hm). by apply bool_decide_eq_true in Hres.
Qed.

Lemma intact_registered shared serviceId (definition : val) st :
  intact st = true → shadows serviceId = false →
  intact (registered shared serviceId definition st) = true.
Proof. intros Hin Hfree. by eapply intact_entered. Qed.

(** [set] with configurators: the service is registered first, then the
    configurators run on its Definition. *)
Lemma set_with serviceId (definition : val) configurators st :
  set call_fn serviceId definition configurators st
  = forEach (configure_with (length (defs st))) configurators
      (registered false serviceId definition st).
Proof.
  set (D0 := fresh_definition false definition).
  set (s0 := with_defs (defs st ++ [D0]) st).
  assert (defs s0 !! length (defs st) = Some D0) as HD0.
  { simpl. by apply list_lookup_middle. }
  unfold set, create, new_def, or_this. fold (fresh_definition false definition).
  fold D0. unfold bind at 1. fold s0.
  rewrite setRaw_after_compile.
  rewrite (compile_plain call_fn _ _ _ _ HD0) by done.
  unfold compiled_state, registered, with_container. simpl.
  fold D0. by rewrite insert_last.
Qed.

Lemma setShared_with serviceId (definition : val) configures st :
  setShared call_fn serviceId definition configures st
  = forEach (configure_with (length (defs st))) configures
      (registered true serviceId definition st).
Proof.
  set (D0 := fresh_definition true definition).
  set (s0 := with_defs (defs st ++ [D0]) st).
  assert (defs s0 !! length (defs st) = Some D0) as HD0.
  { simpl. by apply list_lookup_middle. }
  unfold setShared, create, new_def, or_this. unfold bind at 1.
  unfold set_shared. unfold bind at 1. unfold bind at 1. unfold get_def at 1.
  simpl defs. rewrite list_lookup_middle by done.
  unfold put_def, modify. simpl. fold (fresh_definition true definition).
  fold D0. unfold with_defs. simpl. rewrite insert_last. fold (with_defs (defs st ++ [D0]) st).
  fold s0. rewrite setRaw_after_compile.
  rewrite (compile_plain call_fn _ _ _ _ HD0) by done.
  unfold compiled_state, registered, with_container. simpl.
  fold D0. by rewrite insert_last.
Qed.

Lemma registered_service shared serviceId (definition : val) st :
  service_at (registered shared serviceId definition st) serviceId
    (length (defs st))
    (compiled (fresh_definition shared definition) serviceId (length (closures st)))
    (length (closures st))
    (mkClosure (length (defs st)) (resolver_of (fresh_definition shared definition))
               (if shared then Some (2, VUndef) else None)).
Proof.
  repeat split; simpl.
  - apply map_get_set_eq.
  - by apply list_lookup_middle.
  - by apply list_lookup_middle.
Qed.

(** The wrapper of a Definition without labels is its inner resolver. *)
Lemma wrapped_unlabelled cl D st :
  defs st !! owner cl = Some D → labels D = [] →
  wrapped call_fn cl st
  = run_inner call_fn (owner cl) (inner cl)
      (with_trace (trace st ++ [EvInner (owner cl)]) st).
Proof.
  intros HD Hls. unfold wrapped. unfold bind at 1. unfold emit, modify.
  unfold bind at 1.
  destruct (run_inner call_fn (owner cl) (inner cl) _) as [[v|e] s1] eqn:Hin;
    [|done].
  apply run_inner_frame in Hin as [(Hd1&_&_) _]. simpl in Hd1.
  unfold bind at 1. unfold get_def at 1. rewrite Hd1, HD, Hls. done.
Qed.

Lemma get_unlabelled serviceId d D c cl st :
  service_at st serviceId d D c cl → once cl = None → labels D = [] →
  get call_fn serviceId st
  = run_inner call_fn d (inner cl)
      (with_trace (trace st ++ [EvResolve d; EvInner d]) st).
Proof.
  intros Hsv Ho Hls. pose proof Hsv as (Hid & HD & Hres & Hc & Hown).
  rewrite (get_unfold call_fn _ _ _ _ _ _ Hsv).
  erewrite call_resolver_plain; [|exact Hc|exact Ho].
  erewrite wrapped_unlabelled; [|rewrite Hown; exact HD|exact Hls].
  rewrite Hown. unfold with_trace. simpl. by rewrite <- app_assoc.
Qed.

Lemma gets_constant serviceId d D c cl (v : val) n st :
  service_at st serviceId d D c cl → once cl = None → labels D = [] →
  inner cl = Constant v →
  gets call_fn n serviceId st
  = (Ok (repeat v n),
     with_trace (trace st ++ concat (replicate n [EvResolve d; EvInner d])) st).
Proof.
  intros Hsv Ho Hls Hin. revert st Hsv. induction n as [|n IH]; intros st Hsv.
  - simpl. unfold ret, with_trace. rewrite app_nil_r. by destruct st.
  - simpl. unfold bind at 1.
    rewrite (get_unlabelled _ _ _ _ _ _ Hsv Ho Hls), Hin. simpl. unfold ret.
    unfold bind at 1. rewrite IH.
    + unfold with_trace. simpl. by rewrite <- app_assoc.
    + eapply service_at_same_stores; [|exact Hsv]. by repeat split.
Qed.

(** X8. A value that is neither an object nor a function comes back as it
    is. On a container that is intact, after [set] has registered it under
    an id that is not the name of a method, any number of [get] calls
    complete with that value; registering and getting leave the heap as it
    was and the container intact. *)
Theorem set_get_constant serviceId (v : val) n st :
  intact st = true →
  shadows serviceId = false →
  isObject v = false →
  ∃ st1 st2,
    set call_fn serviceId v [] st = (Ok tt, st1)
    ∧ gets call_fn n serviceId st1 = (Ok (repeat v n), st2)
    ∧ heap st2 = heap st
    ∧ intact st2 = true.
Proof.
  intros Hin Hfree Hv. eexists _, _. rewrite set_with. simpl. unfold ret.
  split; [reflexivity|].
  erewrite gets_constant.
  - split; [reflexivity|]. split; [done|].
    rewrite <- (intact_registered false serviceId v st Hin Hfree).
    by apply intact_container.
  - apply registered_service.
  - done.
  - done.
  - by destruct v.
Qed.

(** X9. A shared service whose specification is not a function gives the
    specification itself. On a container that is intact, after [setShared]
    under an id that is not the name of a method, every [get] completes with
    the very value that was registered, for an object the original reference
    and not a copy; the heap is left as it was and the container intact. *)
Theorem setShared_get_original serviceId (v : val) n st :
  intact st = true →
  shadows serviceId = false →
  isFunction v = false →
  ∃ st1 st2,
    setShared call_fn serviceId v [] st = (Ok tt, st1)
    ∧ gets call_fn n serviceId st1 = (Ok (repeat v n), st2)
    ∧ heap st2 = heap st
    ∧ intact st2 = true.
Proof.
  intros Hin Hfree Hv. rewrite setShared_with. simpl. unfold ret.
  pose proof (intact_registered true serviceId v st Hin Hfree) as Hin1.
  eexists _. destruct n as [|n].
  { eexists. split; [reflexivity|]. by split. }
  pose proof (registered_service true serviceId v st) as Hsv.
  set (st1 := registered true serviceId v st) in *.
  set (d := length (defs st)) in *. set (c := length (closures st)) in *.
  set (cl := mkClosure d (resolver_of (fresh_definition true v)) (Some (2, VUndef))) in *.
  assert (∃ s1, get call_fn serviceId st1 = (Ok v, s1)
                ∧ service_at s1 serviceId d
                    (compiled (fresh_definition true v) serviceId c) c
                    (mkClosure d (resolver_of (fresh_definition true v))
                               (Some (2 - 1, v)))
                ∧ heap s1 = heap st) as (s1 & Hget & Hsv1 & Hh1).
  { pose proof Hsv as (Hid & HD & Hres & Hc & Hown).
    rewrite (get_unfold call_fn _ _ _ _ _ _ Hsv).
    erewrite call_resolver_first; [|exact Hc|reflexivity|lia].
    erewrite wrapped_unlabelled; [|exact HD|reflexivity].
    assert (∀ s, defs s = defs st1 →
                 run_inner call_fn (owner cl) (inner cl) s = (Ok v, s)) as Hinner.
    { intros s Hs. simpl. unfold resolver_of. simpl.
      destruct v; try done.
      unfold run_inner, get_def. munfold. fold d. rewrite Hs, HD. done. }
    rewrite Hinner by done. eexists. split; [reflexivity|].
    split; [|done]. repeat split; simpl; try done.
    + apply list_lookup_insert_eq. rewrite length_insert. by eapply lookup_lt_Some.
  }
  destruct (gets_cached call_fn _ _ _ _ _ (2 - 1) v s1 n Hsv1 eq_refl ltac:(lia))
    as (st2 & Hgets & _ & Hh2).
  exists st2. split; [reflexivity|].
  assert (gets call_fn (S n) serviceId st1 = (Ok (repeat v (S n)), st2)) as Hall.
  { simpl. unfold bind at 1. rewrite Hget. unfold bind at 1. by rewrite Hgets. }
  split; [exact Hall|]. split; [congruence|].
  rewrite <- Hin1. apply intact_container. by apply gets_frame in Hall.
Qed.

(** X10. A function registered with [set] is a factory. On a container
    that is intact, after [set] under an id that is not the name of a
    method, the container is still intact, and every [get], in any later
    state in which the registry is as [set] left it, applies the function
    with the container as receiver and as only argument to the heap of that
    moment; [get] returns what the function returns, or raises when it
    raises, and the heap is the one the function leaves. *)
Theorem set_get_factory serviceId (f : fid) st :
  intact st = true →
  shadows serviceId = false →
  ∃ st1,
    set call_fn serviceId (VFun f) [] st = (Ok tt, st1)
    ∧ intact st1 = true
    ∧ ∀ st', same_stores st1 st' →
        fst (get call_fn serviceId st')
        = match fst (call_fn f XContainer [XContainer] (heap st')) with
          | Some v => Ok v
          | None => Throw UserThrow
          end
        ∧ heap (snd (get call_fn serviceId st'))
          = snd (call_fn f XContainer [XContainer] (heap st'))
        ∧ intact (snd (get call_fn serviceId st')) = true.
Proof.
  intros Hin Hfree.
  pose proof (intact_registered false serviceId (VFun f) st Hin Hfree) as Hin1.
  eexists. rewrite set_with. simpl. unfold ret. split; [reflexivity|].
  split; [exact Hin1|].
  intros st' Hsame.
  pose proof (service_at_same_stores _ _ _ _ _ _ _ Hsame
                (registered_service false serviceId (VFun f) st)) as Hsv.
  assert (intact (snd (get call_fn serviceId st')) = true) as Hin2.
  { rewrite <- Hin1. apply intact_container.
    destruct Hsame as (_ & _ & <-).
    destruct (get call_fn serviceId st') as [o s2] eqn:Hget.
    by apply get_frame in Hget. }
  split; [|split; [|exact Hin2]];
    rewrite (get_unlabelled _ _ _ _ _ _ Hsv eq_refl eq_refl); simpl;
    unfold apply_fn; simpl;
    by destruct (call_fn f XContainer [XContainer] (heap st')) as [[v|] h].
Qed.

(** X11. Registering again under an id that is taken replaces the entry: the
    id keeps its place among the registered ids, it now leads to the new
    Definition, the other ids lead where they led, and the Definition
    objects already built are not changed. *)
Theorem set_replaces serviceId (v : val) (d0 : dref) st :
  map_get serviceId (_definitions (container st)) = Some d0 →
  ∃ st1,
    set call_fn serviceId v [] st = (Ok tt, st1)
    ∧ map fst (_definitions (container st1)) = map fst (_definitions (container st))
    ∧ getDefinition serviceId st1 = (Ok (length (defs st)), st1)
    ∧ (∀ other, other ≠ serviceId →
         map_get other (_definitions (container st1))
         = map_get other (_definitions (container st)))
    ∧ defs st `prefix_of` defs st1.
Proof.
  intros Hold. eexists. rewrite set_with. simpl. unfold ret.
  split; [reflexivity|]. simpl. split; [|split; [|split]].
  - rewrite map_set_keys. unfold set_add. rewrite bool_decide_true; [done|].
    apply map_get_keys. by eexists.
  - unfold getDefinition. munfold. by rewrite map_get_set_eq.
  - intros other Hne. by apply map_get_set_ne.
  - by apply prefix_app_r.
Qed.

(** X12. Registering a service leaves every other registered service alone:
    its id leads to the same Definition, compiled to the same resolver, with
    the same [_.once] state. *)
Theorem set_keeps_other_services serviceId (v : val) other d D c cl st :
  service_at st other d D c cl →
  other ≠ serviceId →
  ∃ st1,
    set call_fn serviceId v [] st = (Ok tt, st1)
    ∧ service_at st1 other d D c cl
    ∧ setShared call_fn serviceId v [] st
      = (Ok tt, registered true serviceId v st)
    ∧ service_at (registered true serviceId v st) other d D c cl.
Proof.
  intros (Hid & HD & Hres & Hc & Hown) Hne.
  assert (∀ shared, service_at (registered shared serviceId v st) other d D c cl)
    as Hkeep.
  { intros shared. repeat split; simpl; try done.
    - by rewrite map_get_set_ne.
    - by apply lookup_app_l_Some.
    - by apply lookup_app_l_Some. }
  eexists. rewrite set_with, setShared_with. simpl. unfold ret.
  split; [reflexivity|]. split; [apply Hkeep|]. split; [reflexivity|apply Hkeep].
Qed.

Lemma constructor_registers (definitions : list (string * val)) st :
  intact st = true →
  Forall (λ serviceId, shadows serviceId = false) (map fst definitions) →
  ∃ st',
    forEach (λ '(serviceId, definition), set call_fn serviceId definition [])
            definitions st = (Ok tt, st')
    ∧ heap st' = heap st ∧ trace st' = trace st
    ∧ _deepClone (container st') = _deepClone (container st)
    ∧ _labels (container st') = _labels (container st)
    ∧ _tags (container st') = _tags (container st)
    ∧ _reserved (container st') = _reserved (container st)
    ∧ (∀ serviceId,
         is_Some (map_get serviceId (_definitions (container st')))
         ↔ serviceId ∈ map fst definitions
           ∨ is_Some (map_get serviceId (_definitions (container st))))
    ∧ (∀ serviceId,
         serviceId ∈ accessors (container st')
         ↔ serviceId ∈ map fst definitions
             ∧ serviceId ∉ _reserved (container st)
           ∨ serviceId ∈ accessors (container st))
    ∧ intact st' = true.
Proof.
  revert st. induction definitions as [|[id v] ds IH]; intros st Hin Hfree.
  - exists st. simpl. repeat split; try done.
    + by right.
    + by intros [?%elem_of_nil|?].
    + by right.
    + by intros [[?%elem_of_nil _]|?].
  - simpl in Hfree. apply Forall_cons in Hfree as [Hid Hfree].
    destruct (IH (registered false id v st))
      as (st' & Hrun & Hh & Htr & Hdc & Hl & Ht & Hr & Hkeys & Hacc & Hin');
      [by apply intact_registered|done|].
    exists st'. split.
    { erewrite forEach_cons_ok; [exact Hrun|]. by rewrite set_with. }
    repeat split; try done.
    + intros Hsome. apply Hkeys in Hsome as [Hin''|Hsome].
      * left. simpl. apply elem_of_cons. by right.
      * simpl in Hsome. destruct (decide (id = serviceId)) as [->|Hne].
        -- left. simpl. apply elem_of_cons. by left.
        -- right. by rewrite map_get_set_ne in Hsome.
    + intros Hor. apply Hkeys. simpl in Hor |- *.
      rewrite elem_of_cons in Hor.
      destruct (decide (id = serviceId)) as [->|Hne].
      * right. rewrite map_get_set_eq. by eexists.
      * destruct Hor as [[?|?]|?]; [done|by left|].
        right. by rewrite map_get_set_ne.
    + intros Hs. apply Hacc in Hs as [[Hs Hnr]|Hs].
      * left. simpl in Hnr |- *. split; [|done]. apply elem_of_cons. by right.
      * simpl in Hs.
        destruct (bool_decide (id ∈ _reserved (container st))) eqn:Hres;
          [by right|].
        apply bool_decide_eq_false in Hres.
        apply set_add_elem in Hs as [->|Hs]; [|by right].
        left. simpl. split; [|done]. apply elem_of_cons. by left.
    + intros Hor. apply Hacc. simpl.
      destruct (bool_decide (id ∈ _reserved (container st))) eqn:Hres.
      * apply bool_decide_eq_true in Hres.
        destruct Hor as [[Hs Hnr]|Hs]; [|by right].
        simpl in Hs. apply elem_of_cons in Hs as [->|Hs]; [done|]. by left.
      * destruct Hor as [[Hs Hnr]|Hs].
        -- simpl in Hs. apply elem_of_cons in Hs as [->|Hs].
           ++ right. apply set_add_elem. by left.
           ++ by left.
        -- right. apply set_add_elem. by right.
Qed.

(** X13. The constructor, given initial definitions none of whose ids is
    the name of a method, completes. It registers every initial definition
    and nothing else: an id is registered in the new container exactly when
    it is one of those given, and it has an accessor exactly when it is one
    of those given and not the name of a field; the container is intact; no
    label is defined, nothing is tagged, nothing is resolved, and the heap
    of the caller is untouched. *)
Theorem new_Pimple_registers (definitions : list (string * val))
  (deepClone : bool) (h : list data) :
  Forall (λ serviceId, shadows serviceId = false) (map fst definitions) →
  ∃ st,
    new_Pimple call_fn definitions deepClone h = (Ok tt, st)
    ∧ heap st = h
    ∧ trace st = []
    ∧ _deepClone (container st) = deepClone
    ∧ _labels (container st) = []
    ∧ _tags (container st) = []
    ∧ (∀ serviceId,
         is_Some (map_get serviceId (_definitions (container st)))
         ↔ serviceId ∈ map fst definitions)
    ∧ (∀ serviceId,
         serviceId ∈ accessors (container st)
         ↔ serviceId ∈ map fst definitions ∧ serviceId ∉ fields)
    ∧ intact st = true.
Proof.
  intros Hfree.
  destruct (constructor_registers definitions (empty_state deepClone h))
    as (st & Hrun & Hh & Htr & Hdc & Hl & Ht & _ & Hkeys & Hacc & Hin);
    [reflexivity|exact Hfree|].
  exists st. split; [exact Hrun|]. repeat split; try done.
  - intros Hsome. apply Hkeys in Hsome as [?|[? Hsome]]; [done|]. done.
  - intros Hin'. apply Hkeys. by left.
  - apply Hacc in H as [[? ?]|?%elem_of_nil]; done.
  - apply Hacc in H as [[? ?]|?%elem_of_nil]; done.
  - intros [? ?]. apply Hacc. by left.
Qed.

(** ** Labels *)

(** X14. The label registry is a map: after [defineLabel] the label gives the
    callback just defined, also when the label had another callback before,
    which is replaced without a second entry; the other labels give what
    they gave; a label that was never defined raises the label-not-defined
    error. *)
Theorem defineLabel_getLabel (l : string) (f g : fid) st :
  ∃ st1 st2,
    defineLabel l f st = (Ok tt, st1)
    ∧ getLabel l st1 = (Ok f, st1)
    ∧ defineLabel l g st1 = (Ok tt, st2)
    ∧ getLabel l st2 = (Ok g, st2)
    ∧ map fst (_labels (container st2)) = map fst (_labels (container st1))
    ∧ (∀ other, other ≠ l → fst (getLabel other st2) = fst (getLabel other st))
    ∧ (∀ other, map_get other (_labels (container st)) = None →
         getLabel other st = (Throw (LabelNotDefined other), st)).
Proof.
  eexists _, _. split; [reflexivity|]. split.
  { unfold getLabel. munfold. by rewrite map_get_set_eq. }
  split; [reflexivity|]. split.
  { unfold getLabel. munfold. by rewrite map_get_set_eq. }
  split.
  { simpl. rewrite (map_set_keys l g). unfold set_add.
    rewrite bool_decide_true; [done|]. apply map_get_keys.
    rewrite map_get_set_eq. by eexists. }
  split.
  - intros other Hne. unfold getLabel. munfold.
    rewrite !map_get_set_ne by done.
    by destruct (map_get other (_labels (container st))).
  - intros other Hnone. unfold getLabel. munfold. by rewrite Hnone.
Qed.

Lemma run_inner_completes cl D s :
  defs s !! owner cl = Some D →
  (∀ f this bound, inner cl = Bound f this bound → completes call_fn f) →
  ∃ v s1, run_inner call_fn (owner cl) (inner cl) s = (Ok v, s1).
Proof.
  intros HD Hfactory.
  destruct (inner cl) as [f this bound|definition|definition] eqn:Hinner; simpl.
  - destruct (Hfactory f this bound eq_refl this bound (heap s)) as (r & h' & Hcall).
    unfold apply_fn. rewrite Hcall. by eexists _, _.
  - unfold get_def. munfold. rewrite HD.
    destruct (_shared D); [by eexists _, _|].
    destruct (_deepClone (container s)), definition; simpl; munfold;
      by eexists _, _.
  - unfold ret. by eexists _, _.
Qed.

(** X15. Labels are looked up when the service is resolved, not when they are
    attached. [get] on a service that is not shared, with an attached label
    that has no callback, raises the label-not-defined error for the first
    such label; by then the inner resolver has run and the callbacks of the
    labels attached before it have been applied, and the service stays
    registered as it was. *)
Theorem get_missing_label serviceId d D c cl pre l post st :
  service_at st serviceId d D c cl →
  once cl = None →
  labels D = pre ++ l :: post →
  live_labels call_fn st pre →
  map_get l (_labels (container st)) = None →
  (∀ f this bound, inner cl = Bound f this bound → completes call_fn f) →
  ∃ st1,
    get call_fn serviceId st = (Throw (LabelNotDefined l), st1)
    ∧ since st st1 = [EvResolve d; EvInner d] ++ map (EvLabel d) pre
    ∧ service_at st1 serviceId d D c cl.
Proof.
  intros Hsv Ho Hls Hlive Hnone Hfactory.
  pose proof Hsv as (Hid & HD & Hres & Hc & Hown).
  rewrite (get_unfold call_fn _ _ _ _ _ _ Hsv).
  erewrite call_resolver_plain; [|exact Hc|exact Ho].
  unfold wrapped. unfold bind at 1. unfold emit, modify. unfold bind at 1.
  destruct (run_inner_completes cl D
              (with_trace (trace (with_trace (trace st ++ [EvResolve d]) st)
                           ++ [EvInner (owner cl)])
                          (with_trace (trace st ++ [EvResolve d]) st)))
    as (v & s1 & Hin); [by rewrite Hown|done|].
  rewrite Hin. apply run_inner_frame in Hin as [(Hd1 & Hc1 & Hp1) Htr1].
  simpl in Hd1, Hc1, Hp1, Htr1.
  unfold bind at 1. unfold get_def at 1. rewrite Hd1, Hown, HD, Hls.
  unfold bind at 1. rewrite forEach_app.
  destruct (run_labels_live call_fn d D v pre s1) as (s2 & Hpre & (Hd2 & Hc2 & Hp2));
    [by rewrite Hd1|unfold live_labels; by rewrite Hp1|].
  rewrite Hpre.
  pose proof Hpre as Hspec.
  eapply run_labels_spec in Hspec as [_ (done_ & _ & Htr2 & Hall)];
    [|by rewrite Hd1].
  rewrite (Hall tt eq_refl) in Htr2.
  simpl. unfold bind at 1. unfold apply_label. unfold bind at 1.
  unfold getLabel. munfold. rewrite Hp2, Hp1, Hnone.
  eexists. split; [reflexivity|]. split.
  - apply since_app. rewrite Htr2, Htr1, Hown. by rewrite <- !app_assoc.
  - repeat split; congruence.
Qed.

(** X16. A shared service whose first resolution raises is spent: the
    [_.once] counter has run down although no result was stored, so every
    later [get] completes with undefined and runs neither the inner resolver
    nor any label callback. *)
Theorem shared_failed_first_get serviceId d D c cl e st st1 :
  service_at st serviceId d D c cl →
  once cl = Some (2, VUndef) →
  get call_fn serviceId st = (Throw e, st1) →
  ∀ n, ∃ st2,
    gets call_fn n serviceId st1 = (Ok (repeat VUndef n), st2)
    ∧ since st1 st2 = repeat (EvResolve d) n
    ∧ heap st2 = heap st1.
Proof.
  intros Hsv Ho Hget n. pose proof Hsv as (Hid & HD & Hres & Hc & Hown).
  rewrite (get_unfold call_fn _ _ _ _ _ _ Hsv) in Hget.
  erewrite call_resolver_first in Hget; [|exact Hc|exact Ho|lia].
  destruct (wrapped call_fn cl _) as [[v|e'] s'] eqn:Hw; [done|].
  injection Hget as -> ->.
  apply wrapped_frame in Hw as (Hd1 & Hc1 & Hp1). simpl in Hd1, Hc1, Hp1.
  assert (service_at st1 serviceId d D c
            (mkClosure (owner cl) (inner cl) (Some (2 - 1, VUndef)))) as Hsv1.
  { repeat split; try congruence; [|exact Hown]. rewrite Hc1.
    apply list_lookup_insert_eq. by eapply lookup_lt_Some. }
  destruct (gets_cached call_fn _ _ _ _ _ (2 - 1) VUndef st1 n Hsv1 eq_refl ltac:(lia))
    as (st2 & Hgets & Htr & Hh).
  exists st2. split; [exact Hgets|]. split; [by apply since_app|exact Hh].
Qed.

(** X17. A label attached to a shared service after it was resolved has no
    effect on it: every later [get] completes with the cached value and the
    callback of the new label is never applied. *)
Theorem label_after_shared_resolution serviceId d D c cl n r how name k st :
  service_at st serviceId d D c cl →
  once cl = Some (n, r) →
  n ≤ 1 →
  ∃ st1 st2,
    attach how serviceId d name st = (Ok tt, st1)
    ∧ gets call_fn k serviceId st1 = (Ok (repeat r k), st2)
    ∧ occurrences (EvLabel d name) (since st1 st2) = 0%nat
    ∧ occurrences (EvInner d) (since st1 st2) = 0%nat.
Proof.
  intros Hsv Ho Hn.
  destruct (attach_spec how _ _ _ _ _ name _ Hsv) as (st1 & Ha & Hsv1 & _).
  destruct (gets_cached call_fn _ _ _ _ _ n r st1 k Hsv1 Ho Hn)
    as (st2 & Hgets & Htr & _).
  exists st1, st2. split; [exact Ha|]. split; [exact Hgets|].
  rewrite (since_app _ _ _ Htr).
  split; apply occurrences_absent; intros Hin;
    apply list_elem_of_In, repeat_spec in Hin; done.
Qed.



Lemma label_plain d D name st :
  defs st !! d = Some D →
  label d name None st = (Ok tt, with_defs (<[d := labelled name D]> (defs st)) st).
Proof.
  intros HD. unfold label, get_def, put_def. munfold. by rewrite HD.
Qed.

Lemma labelled_present name D : name ∈ labels D → labelled name D = D.
Proof.
  intros Hin. unfold labelled, set_add. rewrite bool_decide_true by done.
  by destruct D.
Qed.

Lemma add_labels_absorb ls D :
  (∀ l, l ∈ ls → l ∈ labels D) → add_labels ls D = D.
Proof.
  induction ls as [|l ls IH]; intros Hall; [done|].
  unfold add_labels. simpl. rewrite labelled_present.
  - apply IH. intros l' Hl'. apply Hall, elem_of_cons. by right.
  - apply Hall, elem_of_cons. by left.
Qed.

Lemma add_labels_labels ls D :
  (∀ l, l ∈ labels (add_labels ls D) ↔ l ∈ ls ∨ l ∈ labels D)
  ∧ (NoDup (labels D) → NoDup (labels (add_labels ls D)))
  ∧ labels D `prefix_of` labels (add_labels ls D).
Proof.
  revert D. induction ls as [|l ls IH]; intros D.
  - split; [|done]. intros l. split; [by right|].
    by intros [?%elem_of_nil|?].
  - destruct (IH (labelled l D)) as (Helem & Hnd & Hpre).
    unfold add_labels in *. simpl. split; [|split].
    + intros l'. rewrite Helem. simpl. rewrite set_add_elem, elem_of_cons. tauto.
    + intros HndD. apply Hnd. simpl. by apply set_add_NoDup.
    + etrans; [|exact Hpre]. simpl. unfold set_add.
      case_bool_decide; [done|]. by apply prefix_app_r.
Qed.

Lemma forEach_label d D ls st :
  defs st !! d = Some D →
  forEach (λ l, label d l None) ls st
  = (Ok tt, with_defs (<[d := add_labels ls D]> (defs st)) st).
Proof.
  revert D st. induction ls as [|l ls IH]; intros D st HD.
  - simpl. unfold ret, with_defs. rewrite list_insert_id by done. by destruct st.
  - erewrite forEach_cons_ok; [|by apply label_plain].
    erewrite IH.
    + unfold with_defs. simpl. by rewrite list_insert_insert_eq.
    + simpl. apply list_lookup_insert_eq. by eapply lookup_lt_Some.
Qed.

(** X19. [addLabel] with any number of names completes on a registered
    service and only changes the label set of its Definition: the names are
    added in order, after the labels already there, each name once however
    often it is given; no callback is defined by it. Doing the same call
    again changes nothing at all. *)
Theorem addLabel_idempotent serviceId d D c cl (ls : list string) st :
  service_at st serviceId d D c cl →
  NoDup (labels D) →
  ∃ st1,
    addLabel serviceId ls st = (Ok tt, st1)
    ∧ addLabel serviceId ls st1 = (Ok tt, st1)
    ∧ service_at st1 serviceId d (add_labels ls D) c cl
    ∧ NoDup (labels (add_labels ls D))
    ∧ (∀ l, l ∈ labels (add_labels ls D) ↔ l ∈ ls ∨ l ∈ labels D)
    ∧ labels D `prefix_of` labels (add_labels ls D)
    ∧ _labels (container st1) = _labels (container st)
    ∧ closures st1 = closures st ∧ heap st1 = heap st ∧ trace st1 = trace st.
Proof.
  intros (Hid & HD & Hres & Hc & Hown) Hnd.
  pose proof (lookup_lt_Some _ _ _ HD) as Hlt.
  destruct (add_labels_labels ls D) as (Helem & Hnd' & Hpre).
  set (st1 := with_defs (<[d := add_labels ls D]> (defs st)) st).
  assert (defs st1 !! d = Some (add_labels ls D)) as HD1.
  { simpl. by apply list_lookup_insert_eq. }
  assert (addLabel serviceId ls st = (Ok tt, st1)) as Hrun.
  { unfold addLabel, getDefinition. munfold. rewrite Hid.
    by rewrite (forEach_label d D). }
  exists st1. split; [exact Hrun|]. split.
  { unfold addLabel, getDefinition. munfold. rewrite Hid.
    rewrite (forEach_label d (add_labels ls D)) by done.
    rewrite add_labels_absorb.
    - simpl. unfold with_defs. simpl. by rewrite list_insert_insert_eq.
    - intros l Hl. apply Helem. by left. }
  split.
  { repeat split; try done.
    clear -Hres. revert D Hres. induction ls as [|l ls IH]; intros D Hres; [done|].
    unfold add_labels. simpl. by apply IH. }
  split; [by apply Hnd'|]. split; [exact Helem|]. split; [exact Hpre|].
  by repeat split.
Qed.

(** ** Configurators and direct registration *)

Lemma tag_frame service ts st o st' :
  tag service ts st = (o, st') →
  _definitions (container st') = _definitions (container st)
  ∧ _labels (container st') = _labels (container st)
  ∧ defs st' = defs st ∧ closures st' = closures st
  ∧ heap st' = heap st ∧ trace st' = trace st
  ∧ _reserved (container st') = _reserved (container st)
  ∧ accessors (container st') = accessors (container st).
Proof.
  unfold tag. revert st. induction ts as [|t ts IH]; intros st; simpl.
  - unfold ret. by intros [= <- <-].
  - unfold bind at 1. unfold tag_one at 1.
    destruct (normalizeTag t) as [p|e]; [|by intros [= <- <-]].
    unfold modify. intros Hrest. apply IH in Hrest. simpl in Hrest. exact Hrest.
Qed.

(** X20. On a container that is intact and for an id that is not the name
    of a method, [set] with the configurator built by [exports.tag] is [set]
    without configurator followed by [tag] for the same id. The tags are
    filed after the service is in the registry, so when one of them is
    malformed the error is raised and the service is registered all the
    same; the container stays intact. *)
Theorem set_tag_configurator serviceId (v : val) (ts : list tagspec) st :
  intact st = true →
  shadows serviceId = false →
  set call_fn serviceId v [tag_of ts] st
  = (do_ set call_fn serviceId v []; tag serviceId ts) st
  ∧ ∀ o st1,
      set call_fn serviceId v [tag_of ts] st = (o, st1) →
      getDefinition serviceId st1 = (Ok (length (defs st)), st1)
      ∧ intact st1 = true.
Proof.
  intros Hin Hfree.
  assert (set call_fn serviceId v [tag_of ts] st
          = tag serviceId ts (registered false serviceId v st)) as Heq.
  { rewrite set_with. simpl. unfold bind at 1. unfold tags. unfold bind at 1.
    unfold get_def. simpl. rewrite list_lookup_middle by done. simpl.
    by destruct (tag serviceId ts _) as [[[]|e] s]. }
  split.
  - rewrite Heq. unfold bind at 1. rewrite set_with. done.
  - intros o st1. rewrite Heq. intros Htag.
    apply tag_frame in Htag as (Hdefs & _ & _ & _ & _ & _ & Hres & Hacc).
    simpl in Hdefs. split.
    + unfold getDefinition. munfold. by rewrite Hdefs, map_get_set_eq.
    + rewrite <- (intact_registered false serviceId v st Hin Hfree).
      unfold intact. by rewrite Hres, Hacc.
Qed.

Lemma label_eq d D name (callback : option fid) st :
  defs st !! d = Some D →
  label d name callback st
  = match callback with
    | Some f => defineLabel name f
    | None => ret tt
    end (with_defs (<[d := labelled name D]> (defs st)) st).
Proof.
  intros HD. unfold label, get_def, put_def. munfold. rewrite HD.
  by destruct callback.
Qed.

Lemma addLabel_eq serviceId d D ls st :
  map_get serviceId (_definitions (container st)) = Some d →
  defs st !! d = Some D →
  addLabel serviceId ls st
  = (Ok tt, with_defs (<[d := add_labels ls D]> (defs st)) st).
Proof.
  intros Hid HD. unfold addLabel, getDefinition. munfold. rewrite Hid.
  by rewrite (forEach_label d D).
Qed.

(** X21. On a container that is intact and for an id that is not the name
    of a method, [set] with the configurator built by [exports.label] is
    [set] without configurator, followed by [addLabel] for the same id and,
    when a callback was given, by [defineLabel] for that label; it completes
    and the container stays intact. *)
Theorem set_label_configurator serviceId (v : val) (name : string)
  (callback : option fid) st :
  intact st = true →
  shadows serviceId = false →
  set call_fn serviceId v [label_of name callback] st
  = (do_ set call_fn serviceId v [];
     do_ addLabel serviceId [name];
     match callback with
     | Some f => defineLabel name f
     | None => ret tt
     end) st
  ∧ fst (set call_fn serviceId v [label_of name callback] st) = Ok tt
  ∧ intact (snd (set call_fn serviceId v [label_of name callback] st)) = true.
Proof.
  intros Hin Hfree.
  pose proof (intact_registered false serviceId v st Hin Hfree) as Hin1.
  pose proof (registered_service false serviceId v st) as (Hid & HD & _).
  assert (set call_fn serviceId v [label_of name callback] st
          = (match callback with
             | Some f => defineLabel name f
             | None => ret tt
             end)
              (with_defs (<[length (defs st)
                            := labelled name
                                 (compiled (fresh_definition false v) serviceId
                                           (length (closures st)))]>
                            (defs (registered false serviceId v st)))
                         (registered false serviceId v st))) as Heq.
  { rewrite set_with. cbn [forEach configure_with].
    unfold bind at 1. rewrite (label_eq _ _ _ _ _ HD).
    by destruct callback. }
  rewrite Heq. split; [|split].
  - unfold bind at 1. rewrite (set_with serviceId v [] st). cbn [forEach].
    destruct callback; unfold ret, bind;
      rewrite (addLabel_eq _ _ _ _ _ Hid HD); reflexivity.
  - by destruct callback.
  - rewrite <- Hin1. by destruct callback.
Qed.

Lemma resolve_args_stop (pre : list xval) a post e st st' :
  definition_args pre = [] →
  resolve_def call_fn a st = (Throw e, st') →
  mapM (λ arg, match arg with
               | XDef a => do v <- resolve_def call_fn a; ret (XVal v)
               | _ => ret arg
               end) (pre ++ XDef a :: post) st = (Throw e, st').
Proof.
  intros Hpre Ha. induction pre as [|arg pre IH]; simpl.
  - unfold bind at 1. unfold bind at 1. by rewrite Ha.
  - destruct arg as [v|a'|]; [|done|]; simpl in Hpre;
      unfold bind at 1; unfold ret at 1; unfold bind at 1; by rewrite (IH Hpre).
Qed.

(** X22. A factory Definition one of whose arguments is a Definition that
    was never compiled cannot be registered: [setRaw] raises a type error
    when it comes to resolve that argument. The service is not registered
    and no resolver is built, but the Definition has been given the id. *)
Theorem setRaw_uncompiled_argument serviceId d D f pre a post configurators st :
  defs st !! d = Some D →
  raw D = VFun f →
  args D = pre ++ XDef a :: post →
  definition_args pre = [] →
  (∀ A, defs st !! a = Some A → resolve A = None) →
  ∃ st1,
    setRaw call_fn serviceId (XDef d) configurators st = (Throw TypeError, st1)
    ∧ _definitions (container st1) = _definitions (container st)
    ∧ closures st1 = closures st
    ∧ defs st1 !! d
      = Some (mkDefinition (_shared D) (labels D) (context D) (args D) (raw D)
                           (Some serviceId) (resolve D)).
Proof.
  intros HD Hraw Hargs Hpre Ha. pose proof (lookup_lt_Some _ _ _ HD) as Hlt.
  set (D1 := mkDefinition (_shared D) (labels D) (context D) (args D) (raw D)
                          (Some serviceId) (resolve D)).
  set (s1 := with_defs (<[d := D1]> (defs st)) st).
  assert (defs s1 !! d = Some D1) as HD1.
  { simpl. by apply list_lookup_insert_eq. }
  assert (resolve_def call_fn a s1 = (Throw TypeError, s1)) as Hfail.
  { unfold resolve_def, get_def. unfold bind at 1.
    destruct (defs s1 !! a) as [A|] eqn:HA; [|done].
    assert (resolve A = None) as ->; [|done].
    destruct (decide (a = d)) as [->|Hne].
    - rewrite HD1 in HA. injection HA as <-. simpl. by apply Ha.
    - simpl in HA. rewrite list_lookup_insert_ne in HA by done. by apply Ha. }
  exists s1. split; [|by repeat split].
  unfold setRaw. rewrite setRaw_guard_never_fires. unfold bind at 1.
  unfold compile. unfold bind at 1. unfold get_def at 1. rewrite HD.
  unfold bind at 1. unfold put_def at 1, modify. fold D1. fold s1.
  unfold bind at 1. rewrite Hraw. unfold createResolver.
  unfold bind at 1. unfold get_def at 1. rewrite HD1.
  unfold bind at 1. unfold arguments. unfold bind at 1. unfold get_def at 1.
  rewrite HD1. simpl args. rewrite Hargs.
  by rewrite (resolve_args_stop pre a post TypeError s1 s1 Hpre Hfail).
Qed.

Lemma setRaw_plain serviceId d D st :
  defs st !! d = Some D →
  definition_args (args D) = [] →
  setRaw call_fn serviceId (XDef d) [] st
  = (Ok tt,
     with_container (entered serviceId d (container st))
       (compiled_state d D serviceId st)).
Proof.
  intros HD Hnone. rewrite setRaw_after_compile.
  by rewrite (compile_plain call_fn _ _ _ _ HD Hnone).
Qed.

(** X23. On a container that is intact, one Definition registered under two
    ids, the first of which is not the name of a method, is one service with
    two names: both ids lead to the same Definition and to the resolver
    compiled by the second registration, so they share its [_.once] state
    and its labels; the Definition carries the second id. The container
    stays intact when the second id is not the name of a method either. *)
Theorem setRaw_twice_same_definition ida idb d D st :
  intact st = true →
  shadows ida = false →
  defs st !! d = Some D →
  definition_args (args D) = [] →
  ∃ st2 cl2,
    (do_ setRaw call_fn ida (XDef d) []; setRaw call_fn idb (XDef d) []) st
    = (Ok tt, st2)
    ∧ service_at st2 ida d (compiled D idb (S (length (closures st))))
        (S (length (closures st))) cl2
    ∧ service_at st2 idb d (compiled D idb (S (length (closures st))))
        (S (length (closures st))) cl2
    ∧ once cl2 = (if _shared D then Some (2, VUndef) else None)
    ∧ (shadows idb = false → intact st2 = true).
Proof.
  intros Hin Hfree HD Hnone. pose proof (lookup_lt_Some _ _ _ HD) as Hlt.
  unfold bind at 1. rewrite (setRaw_plain _ _ _ _ HD Hnone).
  set (s1 := with_container _ (compiled_state d D ida st)).
  assert (intact s1 = true) as Hin1 by (by eapply intact_entered).
  assert (defs s1 !! d = Some (compiled D ida (length (closures st)))) as HD1.
  { simpl. by apply list_lookup_insert_eq. }
  rewrite (setRaw_plain _ _ _ _ HD1 Hnone).
  eexists _, _. split; [reflexivity|].
  assert (length (closures s1) = S (length (closures st))) as Hlen.
  { simpl. rewrite length_app. simpl. lia. }
  assert (<[d := compiled (compiled D ida (length (closures st))) idb
                   (length (closures s1))]> (defs s1) !! d
          = Some (compiled D idb (S (length (closures st))))) as Hdef.
  { rewrite Hlen. simpl. rewrite list_insert_insert_eq. by apply list_lookup_insert_eq. }
  assert (∀ cl, (closures s1 ++ [cl]) !! S (length (closures st)) = Some cl) as Hcl.
  { intros cl. rewrite <- Hlen. by apply list_lookup_middle. }
  split; [|split; [|split]].
  - repeat split; simpl; try done.
    destruct (decide (idb = ida)) as [->|Hne]; [apply map_get_set_eq|].
    rewrite map_get_set_ne by done. apply map_get_set_eq.
  - repeat split; simpl; try done. apply map_get_set_eq.
  - done.
  - intros Hfree'. by eapply intact_entered.
Qed.

Lemma wrapped_value cl st v st' :
  wrapped call_fn cl st = (Ok v, st') →
  ∃ s1, run_inner call_fn (owner cl) (inner cl)
          (with_trace (trace st ++ [EvInner (owner cl)]) st) = (Ok v, s1).
Proof.
  unfold wrapped. unfold bind at 1. unfold emit, modify. unfold bind at 1.
  destruct (run_inner call_fn (owner cl) (inner cl) _) as [[v'|e] s1]; [|done].
  unfold bind at 1. destruct (get_def (owner cl) s1) as [[D|e] s2]; [|done].
  unfold bind at 1. destruct (forEach _ (labels D) s2) as [[[]|e] s3]; [|done].
  unfold ret. intros [= -> <-]. by exists s1.
Qed.

(** X24. Marking a Definition as shared after it was registered does not
    make it a singleton. Its resolver was compiled without [_.once], so every
    [get] still runs the inner resolver and the label callbacks; but the
    inner resolver of an object service reads the flag when it runs, so it
    now gives the original object instead of a copy. *)
Theorem shared_flag_after_registration serviceId d D c cl (v v' : val) st st1 :
  service_at st serviceId d D c cl →
  once cl = None →
  inner cl = Copier v →
  _shared D = true →
  get call_fn serviceId st = (Ok v', st1) →
  v' = v
  ∧ since st st1 = [EvResolve d; EvInner d] ++ map (EvLabel d) (labels D)
  ∧ service_at st1 serviceId d D c cl.
Proof.
  intros Hsv Ho Hin Hsh Hget.
  destruct (get_plain call_fn _ _ _ _ _ _ _ _ Hsv Ho Hget) as [Hsv1 Htr].
  split; [|split; [by apply since_app|exact Hsv1]].
  pose proof Hsv as (Hid & HD & Hres & Hc & Hown).
  rewrite (get_unfold call_fn _ _ _ _ _ _ Hsv) in Hget.
  erewrite call_resolver_plain in Hget; [|exact Hc|exact Ho].
  apply wrapped_value in Hget as (s1 & Hrun).
  rewrite Hin, Hown in Hrun. simpl in Hrun. unfold get_def in Hrun. munfold.
  rewrite HD, Hsh in Hrun. by injection Hrun as <- _.
Qed.

End FurtherResolution.

Lemma set_get_constant_witness :
  ∃ st1 st2,
    set scenario_fn "value" (VStr "string") [] (empty_state true []) = (Ok tt, st1)
    ∧ gets scenario_fn 2 "value" st1 = (Ok (repeat (VStr "string") 2), st2)
    ∧ heap st2 = heap (empty_state true [])
    ∧ intact st2 = true.
Proof.
  apply (set_get_constant scenario_fn "value" (VStr "string") 2 (empty_state true [])).
  - reflexivity.
  - reflexivity.
  - reflexivity.
Defined.

Lemma setShared_get_original_witness :
  ∃ st1 st2,
    setShared scenario_fn "array" (VRef 0) [] (empty_state true [DArr []])
    = (Ok tt, st1)
    ∧ gets scenario_fn 2 "array" st1 = (Ok (repeat (VRef 0) 2), st2)
    ∧ heap st2 = heap (empty_state true [DArr []])
    ∧ intact st2 = true.
Proof.
  apply (setShared_get_original scenario_fn "array" (VRef 0) 2
           (empty_state true [DArr []])).
  - reflexivity.
  - reflexivity.
  - reflexivity.
Defined.

Lemma set_get_factory_witness :
  ∃ st1,
    set scenario_fn "factory" (VFun 1) [] (empty_state true []) = (Ok tt, st1)
    ∧ intact st1 = true
    ∧ ∀ st', same_stores st1 st' →
        fst (get scenario_fn "factory" st')
        = match fst (scenario_fn 1%nat XContainer [XContainer] (heap st')) with
          | Some v => Ok v
          | None => Throw UserThrow
          end
        ∧ heap (snd (get scenario_fn "factory" st'))
          = snd (scenario_fn 1%nat XContainer [XContainer] (heap st'))
        ∧ intact (snd (get scenario_fn "factory" st')) = true.
Proof.
  apply (set_get_factory scenario_fn "factory" 1%nat (empty_state true [])).
  - reflexivity.
  - reflexivity.
Defined.

(** The constructor on two initial definitions, one of them under the name
    of a field. *)
Lemma new_Pimple_registers_witness :
  ∃ st,
    new_Pimple scenario_fn [("data", VNum 1); ("_tags", VNum 2)] true [] = (Ok tt, st)
    ∧ heap st = []
    ∧ trace st = []
    ∧ _deepClone (container st) = true
    ∧ _labels (container st) = []
    ∧ _tags (container st) = []
    ∧ (∀ serviceId,
         is_Some (map_get serviceId (_definitions (container st)))
         ↔ serviceId ∈ map fst [("data", VNum 1); ("_tags", VNum 2)])
    ∧ (∀ serviceId,
         serviceId ∈ accessors (container st)
         ↔ serviceId ∈ map fst [("data", VNum 1); ("_tags", VNum 2)]
           ∧ serviceId ∉ fields)
    ∧ intact st = true.
Proof.
  apply (new_Pimple_registers scenario_fn [("data", VNum 1); ("_tags", VNum 2)]
           true []).
  repeat constructor.
Defined.

(** Registering a service under the name of a method leaves a container
    that is not intact: from then on the source reads the accessor where it
    names the method. *)
Example method_name_breaks_container :
  intact (empty_state true []) = true
  ∧ shadows "get" = true
  ∧ intact (snd (set scenario_fn "get" (VNum 42) [] (empty_state true []))) = false
  ∧ accessors (container (snd (set scenario_fn "get" (VNum 42) []
                                 (empty_state true [])))) = ["get"].
Proof. repeat split. Qed.

Example new_Pimple_accessors :
  accessors (container (snd (new_Pimple scenario_fn
                               [("data", VNum 1); ("_tags", VNum 2)] true [])))
  = ["data"].
Proof. reflexivity. Qed.

Lemma set_replaces_witness :
  ∃ st1,
    set scenario_fn "data" (VNum 7) [] plain_data = (Ok tt, st1)
    ∧ map fst (_definitions (container st1))
      = map fst (_definitions (container plain_data))
    ∧ getDefinition "data" st1 = (Ok (length (defs plain_data)), st1)
    ∧ (∀ other, other ≠ "data" →
         map_get other (_definitions (container st1))
         = map_get other (_definitions (container plain_data)))
    ∧ defs plain_data `prefix_of` defs st1.
Proof.
  apply (set_replaces scenario_fn "data" (VNum 7) 0%nat plain_data).
  reflexivity.
Defined.

Lemma set_keeps_other_services_witness :
  ∃ st1,
    set scenario_fn "other" (VNum 7) [] plain_data = (Ok tt, st1)
    ∧ service_at st1 "data" 0
        (mkDefinition false [] XContainer [XContainer] (VRef 0)
                      (Some "data") (Some 0%nat))
        0 (mkClosure 0 (Copier (VRef 0)) None)
    ∧ setShared scenario_fn "other" (VNum 7) [] plain_data
      = (Ok tt, registered true "other" (VNum 7) plain_data)
    ∧ service_at (registered true "other" (VNum 7) plain_data) "data" 0
        (mkDefinition false [] XContainer [XContainer] (VRef 0)
                      (Some "data") (Some 0%nat))
        0 (mkClosure 0 (Copier (VRef 0)) None).
Proof.
  apply (set_keeps_other_services scenario_fn "other" (VNum 7) "data" 0%nat
           (mkDefinition false [] XContainer [XContainer] (VRef 0)
                         (Some "data") (Some 0%nat))
           0%nat (mkClosure 0 (Copier (VRef 0)) None) plain_data).
  - by repeat split.
  - discriminate.
Defined.

Lemma get_missing_label_witness :
  ∃ st1,
    get scenario_fn "array" undefined_label = (Throw (LabelNotDefined "push"), st1)
    ∧ since undefined_label st1 = [EvResolve 0; EvInner 0] ++ map (EvLabel 0) []
    ∧ service_at st1 "array" 0
        (mkDefinition false ["push"] XContainer [XContainer] (VRef 0)
                      (Some "array") (Some 0%nat))
        0 (mkClosure 0 (Copier (VRef 0)) None).
Proof.
  apply (get_missing_label scenario_fn "array" 0%nat
           (mkDefinition false ["push"] XContainer [XContainer] (VRef 0)
                         (Some "array") (Some 0%nat))
           0%nat (mkClosure 0 (Copier (VRef 0)) None) [] "push" []
           undefined_label).
  - by repeat split.
  - reflexivity.
  - reflexivity.
  - constructor.
  - reflexivity.
  - intros f this bound Hin. discriminate Hin.
Defined.

Lemma shared_failed_first_get_witness :
  ∃ st2,
    gets scenario_fn 3 "array" (snd (get scenario_fn "array" shared_undefined_label))
    = (Ok (repeat VUndef 3), st2)
    ∧ since (snd (get scenario_fn "array" shared_undefined_label)) st2
      = repeat (EvResolve 0) 3
    ∧ heap st2 = heap (snd (get scenario_fn "array" shared_undefined_label)).
Proof.
  refine (shared_failed_first_get scenario_fn "array" 0%nat
           (mkDefinition true ["push"] XContainer [XContainer] (VRef 0)
                         (Some "array") (Some 0%nat))
           0%nat (mkClosure 0 (Copier (VRef 0)) (Some (2, VUndef)))
           (LabelNotDefined "push") shared_undefined_label
           (snd (get scenario_fn "array" shared_undefined_label)) _ _ _ 3%nat).
  - by repeat split.
  - reflexivity.
  - reflexivity.
Defined.

Lemma label_after_shared_resolution_witness :
  ∃ st1 st2,
    attach ViaAddLabel "array" 0 "late" shared_array_resolved = (Ok tt, st1)
    ∧ gets scenario_fn 2 "array" st1 = (Ok (repeat (VRef 0) 2), st2)
    ∧ occurrences (EvLabel 0 "late") (since st1 st2) = 0%nat
    ∧ occurrences (EvInner 0) (since st1 st2) = 0%nat.
Proof.
  apply (label_after_shared_resolution scenario_fn "array" 0%nat
           (mkDefinition true ["push"] XContainer [XContainer] (VRef 0)
                         (Some "array") (Some 0%nat))
           0%nat (mkClosure 0 (Copier (VRef 0)) (Some (1, VRef 0))) 1 (VRef 0)
           ViaAddLabel "late" 2 shared_array_resolved).
  - by repeat split.
  - reflexivity.
  - lia.
Defined.


Example two_resolutions_of_labelled_array :
  resolutions scenario_fn 2 (container labelled_array) 0%nat
    (mkDefinition false ["push"] XContainer [XContainer] (VRef 0)
                  (Some "arr") (Some 0%nat))
    (Copier (VRef 0)) (heap labelled_array)
  = ([VRef 1; VRef 2], [DArr []; DArr [DNum 1]; DArr [DNum 1]]).
Proof. reflexivity. Qed.

Lemma addLabel_idempotent_witness :
  ∃ st1,
    addLabel "array" ["pushCount"; "pushEverything"; "pushEverything"] plain_array
    = (Ok tt, st1)
    ∧ addLabel "array" ["pushCount"; "pushEverything"; "pushEverything"] st1
      = (Ok tt, st1)
    ∧ service_at st1 "array" 0
        (add_labels ["pushCount"; "pushEverything"; "pushEverything"]
           (mkDefinition false [] XContainer [XContainer] (VRef 0)
                         (Some "array") (Some 0%nat)))
        0 (mkClosure 0 (Copier (VRef 0)) None)
    ∧ NoDup (labels (add_labels ["pushCount"; "pushEverything"; "pushEverything"]
                       (mkDefinition false [] XContainer [XContainer] (VRef 0)
                                     (Some "array") (Some 0%nat))))
    ∧ (∀ l, l ∈ labels (add_labels ["pushCount"; "pushEverything"; "pushEverything"]
                          (mkDefinition false [] XContainer [XContainer] (VRef 0)
                                        (Some "array") (Some 0%nat)))
            ↔ l ∈ ["pushCount"; "pushEverything"; "pushEverything"] ∨ l ∈ [])
    ∧ [] `prefix_of`
        labels (add_labels ["pushCount"; "pushEverything"; "pushEverything"]
                  (mkDefinition false [] XContainer [XContainer] (VRef 0)
                                (Some "array") (Some 0%nat)))
    ∧ _labels (container st1) = _labels (container plain_array)
    ∧ closures st1 = closures plain_array ∧ heap st1 = heap plain_array
    ∧ trace st1 = trace plain_array.
Proof.
  apply (addLabel_idempotent "array" 0%nat
           (mkDefinition false [] XContainer [XContainer] (VRef 0)
                         (Some "array") (Some 0%nat))
           0%nat (mkClosure 0 (Copier (VRef 0)) None)
           ["pushCount"; "pushEverything"; "pushEverything"] plain_array).
  - by repeat split.
  - apply NoDup_nil_2.
Defined.

Lemma setRaw_uncompiled_argument_witness :
  ∃ st1,
    setRaw scenario_fn "factory" (XDef 1%nat) [] unregistered_dependency
    = (Throw TypeError, st1)
    ∧ _definitions (container st1) = _definitions (container unregistered_dependency)
    ∧ closures st1 = closures unregistered_dependency
    ∧ defs st1 !! 1%nat
      = Some (mkDefinition false [] XContainer [XDef 0%nat] (VFun 1)
                           (Some "factory") None).
Proof.
  apply (setRaw_uncompiled_argument scenario_fn "factory" 1%nat
           (mkDefinition false [] XContainer [XDef 0%nat] (VFun 1) None None)
           1%nat [] 0%nat [] [] unregistered_dependency).
  - reflexivity.
  - reflexivity.
  - reflexivity.
  - reflexivity.
  - intros A [= <-]. reflexivity.
Defined.

Lemma setRaw_twice_same_definition_witness :
  ∃ st2 cl2,
    (do_ setRaw scenario_fn "one" (XDef 0%nat) []; setRaw scenario_fn "uno" (XDef 0%nat) [])
      created_number
    = (Ok tt, st2)
    ∧ service_at st2 "one" 0%nat (compiled (fresh_definition false (VNum 1)) "uno" 1%nat) 1%nat cl2
    ∧ service_at st2 "uno" 0%nat (compiled (fresh_definition false (VNum 1)) "uno" 1%nat) 1%nat cl2
    ∧ once cl2 = None
    ∧ (shadows "uno" = false → intact st2 = true).
Proof.
  apply (setRaw_twice_same_definition scenario_fn "one" "uno" 0%nat
           (fresh_definition false (VNum 1)) created_number).
  - reflexivity.
  - reflexivity.
  - reflexivity.
  - reflexivity.
Defined.

Lemma set_tag_configurator_witness :
  set scenario_fn "data1" (VNum 1) [tag_of [TStr "wo"; TPrim]] (empty_state true [])
  = (do_ set scenario_fn "data1" (VNum 1) []; tag "data1" [TStr "wo"; TPrim])
      (empty_state true [])
  ∧ ∀ o st1,
      set scenario_fn "data1" (VNum 1) [tag_of [TStr "wo"; TPrim]] (empty_state true [])
      = (o, st1) →
      getDefinition "data1" st1 = (Ok (length (defs (empty_state true []))), st1)
      ∧ intact st1 = true.
Proof.
  apply (set_tag_configurator scenario_fn "data1" (VNum 1) [TStr "wo"; TPrim]
           (empty_state true [])).
  - reflexivity.
  - reflexivity.
Defined.

Lemma set_label_configurator_witness :
  set scenario_fn "arr" (VRef 0) [label_of "push" (Some 0%nat)]
    (empty_state true [DArr []])
  = (do_ set scenario_fn "arr" (VRef 0) [];
     do_ addLabel "arr" ["push"];
     defineLabel "push" 0) (empty_state true [DArr []])
  ∧ fst (set scenario_fn "arr" (VRef 0) [label_of "push" (Some 0%nat)]
           (empty_state true [DArr []])) = Ok tt
  ∧ intact (snd (set scenario_fn "arr" (VRef 0) [label_of "push" (Some 0%nat)]
                   (empty_state true [DArr []]))) = true.
Proof.
  apply (set_label_configurator scenario_fn "arr" (VRef 0) "push" (Some 0%nat)
           (empty_state true [DArr []])).
  - reflexivity.
  - reflexivity.
Defined.

Lemma shared_flag_after_registration_witness :
  VRef 0 = VRef 0
  ∧ since shared_too_late (snd (get scenario_fn "arr" shared_too_late))
    = [EvResolve 0%nat; EvInner 0%nat] ++ map (EvLabel 0%nat) ["push"]
  ∧ service_at (snd (get scenario_fn "arr" shared_too_late)) "arr" 0%nat
      (mkDefinition true ["push"] XContainer [XContainer] (VRef 0) (Some "arr") (Some 0%nat))
      0%nat (mkClosure 0%nat (Copier (VRef 0)) None).
Proof.
  apply (shared_flag_after_registration scenario_fn "arr" 0%nat
           (mkDefinition true ["push"] XContainer [XContainer] (VRef 0)
                         (Some "arr") (Some 0%nat))
           0%nat (mkClosure 0%nat (Copier (VRef 0)) None) (VRef 0) (VRef 0)
           shared_too_late (snd (get scenario_fn "arr" shared_too_late))).
  - repeat split.
  - reflexivity.
  - reflexivity.
  - reflexivity.
  - reflexivity.
Defined.
